(** * k8s-manifest-kit/pkg: the TTL cache, its key normalizer and options,
    the render cache, and the deep clone / deep merge of JSON-like trees.

    A shallow embedding of [util/cache] and [util/maps]:
    - Go maps are stdpp [gmap]s; a Go [string] is a [string] (a byte
      sequence); [time.Time] and [time.Duration] are integers counting
      nanoseconds (the int64 range limits of the clock are not modelled);
    - code that mutates its receiver, allocates, or can panic runs in a small
      state-and-failure monad [M S A]; [None] is a panic (or, for the
      recursive tree walkers, exhausted fuel);
    - maps and slices are references into a store, so that sharing between a
      clone and its source can be stated. *)

From stdpp Require Import gmap strings list fin_maps pretty.
From Stdlib Require Import ZArith.

Local Open Scope Z_scope.

(** ** A state monad with failure *)

Definition M (S A : Type) : Type := S → option (A * S).

Definition ret {S A} (a : A) : M S A := λ s, Some (a, s).

Definition bind {S A B} (m : M S A) (k : A → M S B) : M S B :=
  λ s, match m s with
       | Some (a, s') => k a s'
       | None => None
       end.

Definition gets {S A} (f : S → A) : M S A := λ s, Some (f s, s).

Definition modify {S} (f : S → S) : M S unit := λ s, Some (tt, f s).

Definition panic {S A} : M S A := λ _, None.

Notation "'let*' x ':=' m 'in' k" := (bind m (λ x, k))
  (at level 10, x pattern, m at level 100, k at level 200, only parsing).

(** Zero value of a Go type ([var zero T]). *)
Class Zero (T : Type) := zero : T.
Global Instance option_zero {A} : Zero (option A) := None.
Global Instance string_zero : Zero string := EmptyString.
Global Instance Z_zero : Zero Z := 0.

(** Store locations (addresses of backing arrays and of maps). *)
Definition loc := positive.

Module cache.

(** *** Keys ([key any]) *)

(** The integer kinds other than [int] and [int64]. *)
Inductive int_kind :=
  Int8 | Int16 | Int32 | Uint | Uint8 | Uint16 | Uint32 | Uint64 | Uintptr.

(** The dynamic value of a key, by the cases [DefaultKeyFunc] switches on. *)
Inductive Key :=
| KString (s : string)
| KBytes (b : list Byte.byte)
| KInt (k : Z)
| KInt64 (k : Z)
| KOtherInt (ty : int_kind) (k : Z)
| KOther (ty : string) (content : string).

(** [strconv.Itoa] and [strconv.FormatInt(_, 10)]: the decimal text. *)
Definition Itoa (k : Z) : string := pretty k.
Definition FormatInt10 (k : Z) : string := pretty k.

Section key_func.

(** [dump.ForHash] of k8s.io/apimachinery, an external library: a function
    of the key's value and nothing else. *)
Variable ForHash : Key → string.

Definition DefaultKeyFunc (key : Key) : string :=
  match key with
  | KString k => k
  | KBytes k => String.string_of_list_byte k
  | KInt k => Itoa k
  | KInt64 k => FormatInt10 k
  | _ => ForHash key
  end.

End key_func.

(** What [dump.ForHash] prints: spew's [%#v], the type in parentheses and
    then the value, an integer in decimal and a slice between brackets. Used
    to run the key function on concrete keys. *)
Definition int_kind_name (ty : int_kind) : string :=
  match ty with
  | Int8 => "int8" | Int16 => "int16" | Int32 => "int32"
  | Uint => "uint" | Uint8 => "uint8" | Uint16 => "uint16"
  | Uint32 => "uint32" | Uint64 => "uint64" | Uintptr => "uintptr"
  end.

Definition spewInt (ty : string) (k : Z) : string :=
  "(" +:+ ty +:+ ")" +:+ pretty k.

Fixpoint spewBytes (b : list Byte.byte) : string :=
  match b with
  | [] => ""
  | [x] => pretty (Byte.to_N x)
  | x :: b => pretty (Byte.to_N x) +:+ " " +:+ spewBytes b
  end.

Definition spewForHash (key : Key) : string :=
  match key with
  | KString k => "(string)" +:+ k
  | KBytes k => "([]uint8)[" +:+ spewBytes k +:+ "]"
  | KInt k => spewInt "int" k
  | KInt64 k => spewInt "int64" k
  | KOtherInt ty k => spewInt (int_kind_name ty) k
  | KOther ty content => "(" +:+ ty +:+ ")" +:+ content
  end.

(** *** Time *)

Definition Time := Z.
Definition Duration := Z.

(** [t.After(u)]: strictly later. *)
Definition After (t u : Time) : bool := bool_decide (u < t).
Definition Add (t : Time) (d : Duration) : Time := t + d.

Definition Millisecond : Duration := 1000000.
Definition Minute : Duration := 60000000000.
Definition defaultTTL : Duration := 5 * Minute.

(** *** Options (cache_option.go) *)

Record Options := mkOptions {
  TTL : Duration;
  KeyFunc : option (Key → string)   (* a func value; [None] is nil *)
}.

(** Modelled from the spec: [util.Option] and [util.FunctionalOption] of
    util/option.go, which is not among the sources. As docs/design.md gives
    them, an option is a value with [ApplyTo(target *Options)]; here, either
    an [Options] struct or a [FunctionalOption], a function that is run on
    the target. The option values of a list are non-nil. *)
Inductive Option :=
| StructOption (opts : Options)
| FunctionalOption (f : Options → Options).

Definition Options_ApplyTo (opts target : Options) : Options :=
  let target :=
    if bool_decide (TTL opts > 0) then mkOptions (TTL opts) (KeyFunc target)
    else target in
  match KeyFunc opts with
  | Some fn => mkOptions (TTL target) (Some fn)
  | None => target
  end.

Definition ApplyTo (opt : Option) (target : Options) : Options :=
  match opt with
  | StructOption opts => Options_ApplyTo opts target
  | FunctionalOption f => f target
  end.

Definition WithTTL (ttl : Duration) : Option :=
  FunctionalOption (λ opts, mkOptions ttl (KeyFunc opts)).

Definition WithKeyFunc (fn : option (Key → string)) : Option :=
  FunctionalOption (λ opts, mkOptions (TTL opts) fn).

(** *** The TTL cache *)

Record entry (T : Type) := mkEntry {
  value : T;
  expiration : Time
}.
Arguments mkEntry {T}.
Arguments value {T}.
Arguments expiration {T}.

Record defaultCache (T : Type) := mkCache {
  entries : gmap string (entry T);
  ttl : Duration;
  keyFunc : option (Key → string)
}.
Arguments mkCache {T}.
Arguments entries {T}.
Arguments ttl {T}.
Arguments keyFunc {T}.

Section default_cache.

Variable ForHash : Key → string.
Context {T : Type} `{!Zero T}.

(** The options after the defaults, the option loop and the two clamps. *)
Definition New_options (opts : list Option) : Options :=
  let options := mkOptions defaultTTL (Some (DefaultKeyFunc ForHash)) in
  let options := foldl (λ target opt, ApplyTo opt target) options opts in
  let options :=
    if bool_decide (TTL options ≤ 0) then mkOptions defaultTTL (KeyFunc options)
    else options in
  match KeyFunc options with
  | None => mkOptions (TTL options) (Some (DefaultKeyFunc ForHash))
  | Some _ => options
  end.

Definition New (opts : list Option) : defaultCache T :=
  let options := New_options opts in
  mkCache ∅ (TTL options) (KeyFunc options).

(** [c.keyFunc(key)]; calling a nil func panics. *)
Definition call_keyFunc (key : Key) : M (defaultCache T) string :=
  let* kf := gets keyFunc in
  match kf with
  | Some f => ret (f key)
  | None => panic
  end.

Definition Get (now : Time) (key : Key) : M (defaultCache T) (T * bool) :=
  let* strKey := call_keyFunc key in
  let* es := gets entries in
  match es !! strKey with
  | None => ret (zero, false)
  | Some val =>
      if After now (expiration val) then ret (zero, false)
      else ret (value val, true)
  end.

Definition Set_ (now : Time) (key : Key) (val : T) : M (defaultCache T) unit :=
  let* strKey := call_keyFunc key in
  modify (λ c, mkCache
                 (<[strKey := mkEntry val (Add now (ttl c))]> (entries c))
                 (ttl c) (keyFunc c)).

(** One turn of the loop of [Sync] over the entry [(key, val)]. *)
Definition Sync_step (now : Time) (es : gmap string (entry T))
    (kv : string * entry T) : gmap string (entry T) :=
  if After now (expiration kv.2) then delete kv.1 es else es.

Definition Sync (now : Time) : M (defaultCache T) unit :=
  modify (λ c, mkCache
                 (foldl (Sync_step now) (entries c) (map_to_list (entries c)))
                 (ttl c) (keyFunc c)).

End default_cache.

(** What every cache built by [New] satisfies, and [Set_] and [Sync] keep. *)
Definition cache_ok {T : Type} (c : defaultCache T) : Prop :=
  0 < ttl c ∧ is_Some (keyFunc c).

(** *** The render cache *)

(** A value of type [[]unstructured.Unstructured]: nil, or a reference to
    the backing array it spans. *)
Abbreviation Slice := (option loc) (only parsing).

Section render_cache.

Variable ForHash : Key → string.

(** [unstructured.Unstructured] and its [DeepCopy], of k8s.io/apimachinery. *)
Context {Obj : Type} (DeepCopy : Obj → Obj).

Record renderCache := mkRender {
  cache : option (defaultCache Slice)   (* the wrapped [Interface]; may be nil *)
}.

(** The state the render cache runs in: the backing arrays, and the
    receiver [r] ([None] is the nil receiver). *)
Record rstate := mkRState {
  arrays : gmap loc (list Obj);
  self : option renderCache
}.

Definition NewRenderCache (opts : list Option) : renderCache :=
  mkRender (Some (New ForHash opts)).

(** Run a method of the wrapped cache. *)
Definition on_cache {A} (m : M (defaultCache Slice) A) : M rstate A :=
  λ s, match self s with
       | Some (mkRender (Some c)) =>
           match m c with
           | Some (a, c') =>
               Some (a, mkRState (arrays s) (Some (mkRender (Some c'))))
           | None => None
           end
       | _ => None
       end.

Definition load (l : loc) : M rstate (list Obj) :=
  let* h := gets arrays in
  match h !! l with
  | Some objs => ret objs
  | None => panic
  end.

(** [make] and fill a new backing array. *)
Definition alloc (objs : list Obj) : M rstate loc :=
  let* h := gets arrays in
  let l := fresh (dom h) in
  let* _ := modify (λ s, mkRState (<[l := objs]> (arrays s)) (self s)) in
  ret l.

Definition is_nil_receiver (r : option renderCache) : bool :=
  match r with
  | None => true
  | Some rc => match cache rc with None => true | Some _ => false end
  end.

Definition renderCache_Get (now : Time) (key : Key) : M rstate (Slice * bool) :=
  let* r := gets self in
  if is_nil_receiver r then ret (None, false)
  else
    let* (cached, found) := on_cache (Get now key) in
    if negb found then ret (None, false)
    else match cached with
         | None => ret (None, true)
         | Some l =>
             let* objs := load l in
             let* result := alloc (map DeepCopy objs) in
             ret (Some result, true)
         end.

Definition renderCache_Set (now : Time) (key : Key) (val : Slice) : M rstate unit :=
  let* r := gets self in
  if is_nil_receiver r then ret tt
  else match val with
       | None => on_cache (Set_ now key None)
       | Some l =>
           let* objs := load l in
           let* cloned := alloc (map DeepCopy objs) in
           on_cache (Set_ now key (Some cloned))
       end.

Definition renderCache_Sync (now : Time) : M rstate unit :=
  let* r := gets self in
  if is_nil_receiver r then ret tt
  else on_cache (Sync now).

End render_cache.

(** *** Callers of the cache *)

Section calls.

Context {T : Type} `{!Zero T}.

(** One call on the cache interface, with the clock reading it runs at. *)
Inductive call :=
| CallGet (now : Time) (key : Key)
| CallSet (now : Time) (key : Key) (val : T)
| CallSync (now : Time).

(** The call, with what it returns ([Set] and [Sync] return nothing). *)
Definition do_call (cl : call) : M (defaultCache T) (option (T * bool)) :=
  match cl with
  | CallGet now key => let* r := Get now key in ret (Some r)
  | CallSet now key val => let* _ := Set_ now key val in ret None
  | CallSync now => let* _ := Sync now in ret None
  end.

(** A caller's calls, one after the other. *)
Fixpoint do_calls (cls : list call) : M (defaultCache T) (list (option (T * bool))) :=
  match cls with
  | [] => ret []
  | cl :: cls =>
      let* r := do_call cl in
      let* rs := do_calls cls in
      ret (r :: rs)
  end.

End calls.

(** The options as the option loop of [New] leaves them, before the clamps. *)
Definition configured (ForHash : Key → string) (opts : list Option) : Options :=
  foldl (λ target opt, ApplyTo opt target)
    (mkOptions defaultTTL (Some (DefaultKeyFunc ForHash))) opts.

End cache.

Module maps.

(** *** Values of type [any] and the store *)

(** The element types of the five typed slices [DeepCloneValue] lists. *)
Inductive elem_kind := EString | EInt | EInt64 | EFloat64 | EBool.

(** Primitive values; a float is carried as its bit pattern. *)
Inductive scalar :=
| SString (s : string)
| SInt (n : Z)
| SInt64 (n : Z)
| SFloat64 (bits : Z)
| SBool (b : bool)
| SOther (ty : string) (bits : Z).   (* uint8, float32, ... *)

(** The dynamic value of an [any]. A map or slice value is nil ([None]) or
    a reference to its backing container; a slice spans its whole array.
    [VOpaque] stands for every other composite (pointer, struct, channel,
    named map type, ...), with the store locations it refers to. *)
Inductive val :=
| VNil
| VScalar (s : scalar)
| VMap (m : option loc)                         (* map[string]any *)
| VAnySlice (s : option loc)                    (* []any *)
| VTypedSlice (k : elem_kind) (s : option loc)  (* []string, []int, []int64, []float64, []bool *)
| VOtherSlice (ty : string) (s : option loc)    (* any other slice type *)
| VOpaque (ty : string) (targets : list loc).

Inductive obj :=
| OMap (m : gmap string val)
| OArray (elems : list val).

Abbreviation heap := (gmap loc obj).

Global Instance elem_kind_eq_dec : EqDecision elem_kind.
Proof. solve_decision. Defined.

Definition kind_of (s : scalar) : option elem_kind :=
  match s with
  | SString _ => Some EString
  | SInt _ => Some EInt
  | SInt64 _ => Some EInt64
  | SFloat64 _ => Some EFloat64
  | SBool _ => Some EBool
  | SOther _ _ => None
  end.

Definition has_kind (k : elem_kind) (v : val) : bool :=
  match v with
  | VScalar s => bool_decide (kind_of s = Some k)
  | _ => false
  end.

(** *** Store access *)

Definition load_map (l : loc) : M heap (gmap string val) :=
  let* h := gets id in
  match h !! l with
  | Some (OMap m) => ret m
  | _ => panic
  end.

(** The elements a slice value ranges over; a nil slice has none. *)
Definition load_slice (s : option loc) : M heap (list val) :=
  match s with
  | None => ret []
  | Some l =>
      let* h := gets id in
      match h !! l with
      | Some (OArray elems) => ret elems
      | _ => panic
      end
  end.

(** A new container at an address not in use. *)
Definition alloc (o : obj) : M heap loc :=
  let* h := gets id in
  let l := fresh (dom h) in
  let* _ := modify (insert l o) in
  ret l.

(** *** DeepCloneMap and DeepCloneValue (util/maps) *)

(** [for k, v := range m { ... }] with a body that stores at most one value,
    under [k], into [result]. [result] is local until the function returns,
    so it is built first and stored once. The order in which a map is
    ranged over is unspecified; the model takes the order of
    [map_to_list]. *)
Fixpoint range_entries (body : string → val → M heap (option val))
    (kvs : list (string * val)) (result : gmap string val)
    : M heap (gmap string val) :=
  match kvs with
  | [] => ret result
  | (k, v) :: kvs =>
      let* r := body k v in
      range_entries body kvs
        (match r with Some r => <[k := r]> result | None => result end)
  end.

(** [result[k] = DeepCloneValue(v)]. *)
Definition clone_entry (clone : val → M heap val) (k : string) (v : val)
    : M heap (option val) :=
  let* v' := clone v in
  ret (Some v').

(** [for i, elem := range val { clone[i] = clone(elem) }]. *)
Fixpoint clone_elems (clone : val → M heap val) (elems : list val)
    : M heap (list val) :=
  match elems with
  | [] => ret []
  | elem :: elems =>
      let* elem' := clone elem in
      let* elems' := clone_elems clone elems in
      ret (elem' :: elems')
  end.

Definition DeepCloneMap_with (clone : val → M heap val) (m : option loc)
    : M heap (option loc) :=
  match m with
  | None => ret None
  | Some l =>
      let* entries := load_map l in
      let* result := range_entries (clone_entry clone) (map_to_list entries) ∅ in
      let* r := alloc (OMap result) in
      ret (Some r)
  end.

(** [clone := make([]E, len(val)); copy(clone, val)], and the same by
    reflection ([MakeSlice], then [Index(i).Set] per element): a new array
    holding the very same element values. *)
Definition copy_slice (s : option loc) : M heap (option loc) :=
  let* elems := load_slice s in
  let* clone := alloc (OArray elems) in
  ret (Some clone).

(** [fuel] bounds the depth of the recursion. A clone under construction
    ([make], then the loop that fills it) is local to the call, so the model
    stores it when it is complete; only the addresses chosen differ from an
    allocation before the loop. *)
Fixpoint DeepCloneValue (fuel : nat) (v : val) : M heap val :=
  match fuel with
  | O => panic
  | S fuel =>
      match v with
      | VNil => ret VNil
      | VMap val =>
          let* r := DeepCloneMap_with (DeepCloneValue fuel) val in
          ret (VMap r)
      | VAnySlice val =>
          let* elems := load_slice val in
          let* elems' := clone_elems (DeepCloneValue fuel) elems in
          let* clone := alloc (OArray elems') in
          ret (VAnySlice (Some clone))
      | VTypedSlice k val =>
          let* clone := copy_slice val in
          ret (VTypedSlice k clone)
      | VOtherSlice ty val =>
          let* clone := copy_slice val in
          ret (VOtherSlice ty clone)
      | VScalar _ | VOpaque _ _ => ret v
      end
  end.

Definition DeepCloneMap (fuel : nat) (m : option loc) : M heap (option loc) :=
  DeepCloneMap_with (DeepCloneValue fuel) m.

(** *** DeepMerge (util/maps) *)

(** [m, ok := v.(map[string]any)]. *)
Definition as_map (v : val) : option (option loc) :=
  match v with
  | VMap m => Some m
  | _ => None
  end.

(** The body of the first loop of [DeepMerge], over the entries of [base]. *)
Definition merge_base_entry (merge : option loc → option loc → M heap (option loc))
    (clone : val → M heap val) (overlay : gmap string val)
    (k : string) (baseValue : val) : M heap (option val) :=
  match overlay !! k with
  | Some overlayValue =>
      match as_map baseValue, as_map overlayValue with
      | Some baseMap, Some overlayMap =>
          let* m := merge baseMap overlayMap in
          ret (Some (VMap m))
      | _, _ =>
          let* r := clone overlayValue in
          ret (Some r)
      end
  | None =>
      let* r := clone baseValue in
      ret (Some r)
  end.

(** The body of the second loop, over the entries of [overlay]. *)
Definition merge_overlay_entry (clone : val → M heap val) (base : gmap string val)
    (k : string) (overlayValue : val) : M heap (option val) :=
  match base !! k with
  | Some _ => ret None
  | None =>
      let* r := clone overlayValue in
      ret (Some r)
  end.

(** [DeepMerge] past its nil checks: both maps are non-nil. *)
Definition merge_maps (merge : option loc → option loc → M heap (option loc))
    (clone : val → M heap val) (base overlay : loc) : M heap (option loc) :=
  let* baseEntries := load_map base in
  let* overlayEntries := load_map overlay in
  let* result :=
    range_entries (merge_base_entry merge clone overlayEntries)
      (map_to_list baseEntries) ∅ in
  let* result :=
    range_entries (merge_overlay_entry clone baseEntries)
      (map_to_list overlayEntries) result in
  let* r := alloc (OMap result) in
  ret (Some r).

Fixpoint DeepMerge (fuel : nat) (base overlay : option loc) : M heap (option loc) :=
  match fuel with
  | O => panic
  | S fuel =>
      match base, overlay with
      | None, None =>
          let* r := alloc (OMap ∅) in
          ret (Some r)
      | None, Some _ => DeepCloneMap fuel overlay
      | Some _, None => DeepCloneMap fuel base
      | Some b, Some o =>
          merge_maps (DeepMerge fuel) (DeepCloneValue fuel) b o
      end
  end.

(** *** Trees in the store *)

(** [wf strict n h v]: below [v], the store [h] holds a tree of depth less
    than [n]: every map and slice reached is allocated with the right kind
    of container, and a typed slice holds scalars of its element type. With
    [strict], the tree is built from the recognized shapes only (maps,
    [[]any], the five typed slices, scalars): no other slice type and no
    opaque composite. *)
Fixpoint wf (strict : bool) (n : nat) (h : heap) (v : val) : bool :=
  match n with
  | O => false
  | S n =>
      match v with
      | VNil | VScalar _ => true
      | VMap None | VAnySlice None | VTypedSlice _ None => true
      | VMap (Some l) =>
          match h !! l with
          | Some (OMap m) => forallb (wf strict n h) (map_to_list m).*2
          | _ => false
          end
      | VAnySlice (Some l) =>
          match h !! l with
          | Some (OArray elems) => forallb (wf strict n h) elems
          | _ => false
          end
      | VTypedSlice k (Some l) =>
          match h !! l with
          | Some (OArray elems) => forallb (has_kind k) elems
          | _ => false
          end
      | VOtherSlice _ None => negb strict
      | VOtherSlice _ (Some l) =>
          negb strict &&
          match h !! l with
          | Some (OArray _) => true
          | _ => false
          end
      | VOpaque _ _ => negb strict
      end
  end.

(** The elements of a slice value in a store. *)
Definition elems_of (h : heap) (s : option loc) : option (list val) :=
  match s with
  | None => Some []
  | Some l => match h !! l with
              | Some (OArray elems) => Some elems
              | _ => None
              end
  end.

(** Structural equality of [v1] in store [h1] and [v2] in store [h2], to
    depth [n]: the same kind of value; equal scalars; maps both nil, or both
    allocated with the same keys and structurally equal values; slices of
    the same type with the same number of elements, pairwise structurally
    equal (a nil slice and an empty one both have no element); opaque values
    identical. *)
Fixpoint sim (n : nat) (h1 : heap) (v1 : val) (h2 : heap) (v2 : val) : Prop :=
  match n with
  | O => False
  | S n =>
      match v1, v2 with
      | VNil, VNil => True
      | VScalar s1, VScalar s2 => s1 = s2
      | VMap None, VMap None => True
      | VMap (Some l1), VMap (Some l2) =>
          ∃ m1 m2, h1 !! l1 = Some (OMap m1) ∧ h2 !! l2 = Some (OMap m2) ∧
            ∀ k, option_Forall2 (λ a b, sim n h1 a h2 b) (m1 !! k) (m2 !! k)
      | VAnySlice s1, VAnySlice s2 =>
          ∃ es1 es2, elems_of h1 s1 = Some es1 ∧ elems_of h2 s2 = Some es2 ∧
            Forall2 (λ a b, sim n h1 a h2 b) es1 es2
      | VTypedSlice k1 s1, VTypedSlice k2 s2 =>
          k1 = k2 ∧ ∃ es, elems_of h1 s1 = Some es ∧ elems_of h2 s2 = Some es
      | VOtherSlice ty1 s1, VOtherSlice ty2 s2 =>
          ty1 = ty2 ∧ ∃ es, elems_of h1 s1 = Some es ∧ elems_of h2 s2 = Some es
      | VOpaque _ _, VOpaque _ _ => v1 = v2
      | _, _ => False
      end
  end.

(** The containers a value refers to directly, and the values a container
    holds. *)
Definition refs (v : val) : list loc :=
  match v with
  | VMap (Some l) | VAnySlice (Some l)
  | VTypedSlice _ (Some l) | VOtherSlice _ (Some l) => [l]
  | VOpaque _ targets => targets
  | _ => []
  end.

Definition contents (o : obj) : list val :=
  match o with
  | OMap m => (map_to_list m).*2
  | OArray elems => elems
  end.

(** [reachable h v l]: the container at [l] backs [v] in [h], directly or
    through the values of the containers that do. *)
Inductive reachable (h : heap) : val → loc → Prop :=
| reachable_here v l :
    l ∈ refs v → reachable h v l
| reachable_step v l o v' l' :
    l ∈ refs v → h !! l = Some o → v' ∈ contents o →
    reachable h v' l' → reachable h v l'.

(** *** Specifications *)

(** What a clone [v'] in the store [h'] is to its source [v] in [h]: the
    store has only grown, the clone is structurally equal to the source and
    is a tree of the same shape class, and (for the recognized shapes) every
    container below it was allocated after [h]. *)
Definition clone_post (b : bool) (n : nat) (h : gmap loc obj) (v : val)
    (h' : gmap loc obj) (v' : val) : Prop :=
  h ⊆ h' ∧ sim n h v h' v' ∧ wf b n h' v' = true ∧
  (b = true → ∀ l, reachable h' v' l → l ∉ dom h).

(** [clone] returns on every tree of depth below [n], with a clone. *)
Definition clones_ok (b : bool) (n : nat) (clone : val → M (gmap loc obj) val) : Prop :=
  ∀ h v, wf b n h v = true →
    ∃ v' h', clone v h = Some (v', h') ∧ clone_post b n h v h' v'.

(** [r] is the value [clone] returned for [v], run in a store between [h]
    and [h']; and likewise for [merge]. *)
Definition cloned_by (clone : val → M (gmap loc obj) val) (h : gmap loc obj)
    (v : val) (h' : gmap loc obj) (r : option val) : Prop :=
  ∃ v' ha hb, h ⊆ ha ∧ hb ⊆ h' ∧ clone v ha = Some (v', hb) ∧ r = Some v'.

Definition merged_by (merge : option loc → option loc → M (gmap loc obj) (option loc))
    (h : gmap loc obj) (x y : option loc) (h' : gmap loc obj)
    (r : option val) : Prop :=
  ∃ z ha hb, h ⊆ ha ∧ hb ⊆ h' ∧ merge x y ha = Some (z, hb) ∧ r = Some (VMap z).

(** What the result map holds under a key, by the entries of the two
    inputs under that key. *)
Definition merge_entry_spec merge clone (h : gmap loc obj)
    (b o : option val) (h' : gmap loc obj) (r : option val) : Prop :=
  match b, o with
  | Some bv, Some ov =>
      match as_map bv, as_map ov with
      | Some x, Some y => merged_by merge h x y h' r
      | _, _ => cloned_by clone h ov h' r
      end
  | Some bv, None => cloned_by clone h bv h' r
  | None, Some ov => cloned_by clone h ov h' r
  | None, None => r = None
  end.

Definition merges_ok (n : nat)
    (merge : option loc → option loc → M (gmap loc obj) (option loc)) : Prop :=
  ∀ h base overlay,
    wf false n h (VMap base) = true → wf false n h (VMap overlay) = true →
    ∃ r h', merge base overlay h = Some (Some r, h') ∧ h ⊆ h' ∧ (r ∉ dom h).

(** [r] holds a deep clone of [v]: the value [DeepCloneValue] returned for
    [v] in a store between [h] and [h'], structurally equal to [v]. *)
Definition is_clone (n : nat) (h : gmap loc obj) (v : val)
    (h' : gmap loc obj) (r : option val) : Prop :=
  cloned_by (DeepCloneValue n) h v h' r ∧
  ∃ v', r = Some v' ∧ sim n h v h' v'.

(** *** Stores for the examples *)

Definition int (n : Z) : val := VScalar (SInt n).
Definition str (s : string) : val := VScalar (SString s).

(** [{"a": 1}] at 1 and [{"a": [1, 2]}] at 2. *)
Definition store_a : gmap loc obj :=
  {[ 1%positive := OMap {["a" := int 1]};
     2%positive := OMap {["a" := VAnySlice (Some 3%positive)]};
     3%positive := OArray [int 1; int 2] ]}.

(** [{"tags": []string{"dev", "test"}}] at 1 and
    [{"tags": []string{"prod"}}] at 2. *)
Definition store_tags : gmap loc obj :=
  {[ 1%positive := OMap {["tags" := VTypedSlice EString (Some 3%positive)]};
     2%positive := OMap {["tags" := VTypedSlice EString (Some 4%positive)]};
     3%positive := OArray [str "dev"; str "test"];
     4%positive := OArray [str "prod"] ]}.

(** [{"x": {"p": 1}}] at 1 and [{"x": "str"}] at 2. *)
Definition store_x : gmap loc obj :=
  {[ 1%positive := OMap {["x" := VMap (Some 3%positive)]};
     2%positive := OMap {["x" := str "str"]};
     3%positive := OMap {["p" := int 1]} ]}.

(** The nested [config] maps of the comment on [DeepMerge]. *)
Definition store_config : gmap loc obj :=
  {[ 1%positive := OMap {["config" := VMap (Some 3%positive)]};
     2%positive := OMap {["config" := VMap (Some 4%positive)]};
     3%positive := OMap {["host" := str "localhost"; "port" := int 8080;
                          "timeout" := int 30]};
     4%positive := OMap {["port" := int 9090; "retries" := int 3]} ]}.

(** A [[]map[string]string]-like slice at 2 whose one element is the map
    at 1. *)
Definition store_rows : gmap loc obj :=
  {[ 1%positive := OMap {["name" := str "a"]};
     2%positive := OArray [VMap (Some 1%positive)] ]}.

End maps.

Module k8s.

(** *** Annotations and labels (util/k8s) *)

Section object.

(** The [Object] interface is declared outside the sources. The four
    functions use it through [GetAnnotations], [SetAnnotations], [GetLabels]
    and [SetLabels] only; these are parameters. A getter returns a
    [map[string]string] that may be nil ([None]); the setters are only ever
    passed a non-nil map. A call that mutates the object returns the object
    after it. *)
Context {Object : Type}.
Variable GetAnnotations : Object → option (gmap string string).
Variable Object_SetAnnotations : Object → gmap string string → Object.
Variable GetLabels : Object → option (gmap string string).
Variable Object_SetLabels : Object → gmap string string → Object.

(** [maps.Copy(dst, src)]: [for k, v := range src { dst[k] = v }]. *)
Definition maps_Copy (dst src : gmap string string) : gmap string string :=
  foldl (λ dst kv, <[kv.1 := kv.2]> dst) dst (map_to_list src).

(** [if m == nil { m = make(map[string]string) }]. *)
Definition or_make (m : option (gmap string string)) : gmap string string :=
  match m with
  | Some m => m
  | None => ∅
  end.

Definition SetAnnotation (obj : Object) (key value : string) : Object :=
  let annotations := or_make (GetAnnotations obj) in
  let annotations := <[key := value]> annotations in
  Object_SetAnnotations obj annotations.

(** [toSet] is only ranged over; a nil [toSet] ranges as the empty map. *)
Definition SetAnnotations (obj : Object) (toSet : gmap string string) : Object :=
  let annotations := or_make (GetAnnotations obj) in
  let annotations := maps_Copy annotations toSet in
  Object_SetAnnotations obj annotations.

Definition SetLabel (obj : Object) (key value : string) : Object :=
  let labels := or_make (GetLabels obj) in
  let labels := <[key := value]> labels in
  Object_SetLabels obj labels.

Definition SetLabels (obj : Object) (toSet : gmap string string) : Object :=
  let labels := or_make (GetLabels obj) in
  let labels := maps_Copy labels toSet in
  Object_SetLabels obj labels.

End object.

(** An object with the two maps as fields, to run the functions on. *)
Record meta := mkMeta {
  annotations : option (gmap string string);
  labels : option (gmap string string)
}.

Definition meta_SetAnnotations (o : meta) (m : gmap string string) : meta :=
  mkMeta (Some m) (labels o).

Definition meta_SetLabels (o : meta) (m : gmap string string) : meta :=
  mkMeta (annotations o) (Some m).

End k8s.

(** * Properties of the cache *)

Import cache.

Section cache_facts.

Variable ForHash : Key → string.
Context {T : Type} `{!Zero T}.

Lemma New_options_ok (opts : list Option) :
  0 < TTL (New_options ForHash opts) ∧ is_Some (KeyFunc (New_options ForHash opts)).
Proof.
  unfold New_options.
  set (o := foldl _ _ opts). clearbody o. destruct o as [d kf].
  simpl. case_bool_decide as Httl; destruct kf; simpl;
    (split; [ cbv [defaultTTL Minute]; lia | eauto ]).
Qed.

Lemma New_ok (opts : list Option) : cache_ok (New (T:=T) ForHash opts).
Proof. apply New_options_ok. Qed.

Lemma Set_unfold (c : defaultCache T) f now key v :
  keyFunc c = Some f →
  Set_ now key v c =
    Some (tt, mkCache (<[f key := mkEntry v (now + ttl c)]> (entries c))
                      (ttl c) (keyFunc c)).
Proof. intros Hf. destruct c as [es d kf]. simpl in Hf. by subst kf. Qed.

Lemma Get_unfold (c : defaultCache T) f now key :
  keyFunc c = Some f →
  Get now key c =
    Some (match entries c !! f key with
          | None => (zero, false)
          | Some val =>
              if bool_decide (expiration val < now) then (zero, false)
              else (value val, true)
          end, c).
Proof.
  intros Hf. destruct c as [es d kf]. simpl in Hf. subst kf.
  unfold Get, call_keyFunc, bind, gets, ret, After. simpl.
  destruct (es !! f key) as [e|]; [|done]. by case_bool_decide.
Qed.

(** The loop of [Sync]: a key is gone afterwards exactly when the list
    held it with an expired entry. *)
Lemma Sync_loop_lookup now (l : list (string * entry T)) es k :
  foldl (Sync_step now) es l !! k =
    if existsb (λ kv, bool_decide (kv.1 = k) && After now (expiration kv.2)) l
    then None else es !! k.
Proof.
  revert es. induction l as [|[k' e] l IH]; intros es; simpl; [done|].
  rewrite IH. unfold Sync_step. simpl.
  destruct (existsb _ l) eqn:Hex; [by rewrite orb_true_r|].
  rewrite orb_false_r. destruct (After now (expiration e)); simpl.
  - case_bool_decide; simplify_map_eq; done.
  - by rewrite andb_false_r.
Qed.

Lemma Sync_lookup (c c' : defaultCache T) now k :
  Sync now c = Some (tt, c') →
  entries c' !! k =
    match entries c !! k with
    | Some e => if bool_decide (expiration e < now) then None else Some e
    | None => None
    end.
Proof.
  unfold Sync, modify. intros [= <-]. simpl. rewrite Sync_loop_lookup.
  destruct (existsb _ _) eqn:Hex.
  - apply existsb_exists in Hex as [[k' e] [Hin Hp]]. simpl in Hp.
    apply andb_prop in Hp as [Hk He]. apply bool_decide_eq_true in Hk as ->.
    apply list_elem_of_In, elem_of_map_to_list in Hin. rewrite Hin.
    unfold After in He. by rewrite He.
  - destruct (entries c !! k) as [e|] eqn:Hk; [|done].
    case_bool_decide as Hexp; [|done]. exfalso.
    apply not_true_iff_false in Hex. apply Hex, existsb_exists.
    exists (k, e). split.
    + by apply list_elem_of_In, elem_of_map_to_list.
    + simpl. rewrite bool_decide_eq_true_2 by done. unfold After.
      by rewrite bool_decide_eq_true_2.
Qed.

End cache_facts.

Section cache_claims.

Variable ForHash : Key → string.
Context {T : Type} `{!Zero T}.

(** C1. On a cache that is freshly built or already populated, [Set_] of
    [v] under a key writes the entry [(v, now + ttl)] at the normalized key
    and nothing else; a [Get] of that key at once, or at any time up to and
    including [now + ttl], returns [(v, true)], the very value stored; and a
    later [Set_] of the same key replaces the entry whole, leaving no trace
    of the earlier write. *)
Theorem Set_then_Get (c : defaultCache T) (now now' : Time) (key : Key) (v : T) :
  cache_ok c →
  now' ≤ now + ttl c →
  ∃ f c',
    keyFunc c = Some f ∧
    Set_ now key v c = Some (tt, c') ∧
    entries c' = <[f key := mkEntry v (now + ttl c)]> (entries c) ∧
    ttl c' = ttl c ∧ keyFunc c' = keyFunc c ∧
    Get now key c' = Some ((v, true), c') ∧
    Get now' key c' = Some ((v, true), c') ∧
    ∀ now2 v2, ∃ c'',
      Set_ now2 key v2 c' = Some (tt, c'') ∧
      entries c'' = <[f key := mkEntry v2 (now2 + ttl c)]> (entries c) ∧
      Get now2 key c'' = Some ((v2, true), c'').
Proof.
  intros [Httl [f Hf]] Hnow. eexists f, _.
  split; [done|]. split; [by apply Set_unfold|]. simpl.
  repeat split; try done.
  - erewrite Get_unfold by done. simpl. rewrite lookup_insert_eq. simpl.
    by rewrite bool_decide_eq_false_2 by lia.
  - erewrite Get_unfold by done. simpl. rewrite lookup_insert_eq. simpl.
    by rewrite bool_decide_eq_false_2 by lia.
  - intros now2 v2. eexists. split; [by apply Set_unfold|]. simpl.
    split; [by rewrite insert_insert_eq|].
    erewrite Get_unfold by done. simpl. rewrite lookup_insert_eq. simpl.
    by rewrite bool_decide_eq_false_2 by lia.
Qed.

(** C2, as amended. [Get] returns [(zero, false)] whenever the entry is
    absent or the clock is strictly past its expiration ([now > expiresAt]),
    and it never changes the cache: in the expired case the entry stays in
    the entry map. *)
Theorem Get_absent_or_expired (c : defaultCache T) f (now : Time) (key : Key) :
  keyFunc c = Some f →
  match entries c !! f key with
  | None => True
  | Some e => expiration e < now
  end →
  Get now key c = Some ((zero, false), c) ∧
  ∀ now0 key0 r c', Get now0 key0 c = Some (r, c') → c' = c.
Proof.
  intros Hf Hk. split.
  - erewrite Get_unfold by done. destruct (entries c !! f key) as [e|]; [|done].
    by rewrite bool_decide_eq_true_2.
  - intros now0 key0 r c'. erewrite Get_unfold by done. by intros [= _ <-].
Qed.

(** C3, as amended. [Sync] deletes exactly the entries the clock is
    strictly past ([expiresAt < now]): each of them is gone afterwards, each
    entry with [expiresAt ≥ now] remains as it was, and nothing else in the
    cache changes; so once the clock has advanced past an entry's
    expiration, [Sync] removes that key and strictly lowers the entry
    count. *)
Theorem Sync_removes_expired (c : defaultCache T) (now : Time) :
  ∃ c',
    Sync now c = Some (tt, c') ∧
    ttl c' = ttl c ∧ keyFunc c' = keyFunc c ∧
    (∀ k e, entries c !! k = Some e → expiration e < now → entries c' !! k = None) ∧
    (∀ k e, entries c !! k = Some e → now ≤ expiration e → entries c' !! k = Some e) ∧
    (∀ k, entries c !! k = None → entries c' !! k = None) ∧
    (∀ k e, entries c !! k = Some e → expiration e < now →
       (size (entries c') < size (entries c))%nat).
Proof.
  assert (∃ c', Sync now c = Some (tt, c')) as [c' Hs] by (eexists; reflexivity).
  exists c'. split; [done|].
  assert (ttl c' = ttl c ∧ keyFunc c' = keyFunc c) as [Ht Hf]
    by (unfold Sync, modify in Hs; by injection Hs as <-).
  pose proof (λ k, Sync_lookup c c' now k Hs) as Hl. clear Hs.
  split; [done|]. split; [done|]. repeat split.
  - intros k e Hk He. by rewrite Hl, Hk, bool_decide_eq_true_2.
  - intros k e Hk He. by rewrite Hl, Hk, bool_decide_eq_false_2 by lia.
  - intros k Hk. by rewrite Hl, Hk.
  - intros k e Hk He. apply map_subset_size. split.
    + apply map_subseteq_spec. intros i x. rewrite Hl.
      destruct (entries c !! i); [|done]. by case_bool_decide.
    + intros Hsub. eapply lookup_weaken in Hsub; [|done].
      by rewrite Hl, Hk, bool_decide_eq_true_2 in Hsub.
Qed.

(** C9. [New] is a total function of its option list. Its TTL is the one
    the options leave when that is positive and the 5-minute default
    otherwise; its key function is the one the options leave when that is
    non-nil and [DefaultKeyFunc] otherwise. So every cache built has
    [ttl > 0] and a non-nil key function; in particular a zero or negative
    [WithTTL] and a nil [WithKeyFunc] give the defaults. *)
Theorem New_never_rejects (opts : list Option) :
  let defaults := mkOptions defaultTTL (Some (DefaultKeyFunc ForHash)) in
  let configured := foldl (λ target opt, ApplyTo opt target) defaults opts in
  let c := New (T:=T) ForHash opts in
  entries c = ∅ ∧
  ttl c = (if bool_decide (TTL configured ≤ 0) then defaultTTL else TTL configured) ∧
  keyFunc c = Some (default (DefaultKeyFunc ForHash) (KeyFunc configured)) ∧
  0 < ttl c ∧ is_Some (keyFunc c) ∧
  defaultTTL = 5 * 60 * 1000000000 ∧
  (∀ d, d ≤ 0 → ttl (New (T:=T) ForHash (opts ++ [WithTTL d])) = defaultTTL) ∧
  keyFunc (New (T:=T) ForHash (opts ++ [WithKeyFunc None]))
    = Some (DefaultKeyFunc ForHash) ∧
  (∀ d, d ≤ 0 →
     New (T:=T) ForHash (opts ++ [StructOption (mkOptions d None)])
       = New ForHash opts).
Proof.
  intros defaults configured c. split; [done|].
  assert (Hc : c = mkCache ∅ (TTL (New_options ForHash opts))
                              (KeyFunc (New_options ForHash opts))) by done.
  split; [|split; [|split; [|split; [|split; [|split; [|split]]]]]].
  - rewrite Hc. simpl. unfold New_options. fold defaults. fold configured.
    case_bool_decide; simpl; by destruct (KeyFunc configured).
  - rewrite Hc. simpl. unfold New_options. fold defaults. fold configured.
    case_bool_decide; simpl; by destruct (KeyFunc configured) eqn:E.
  - apply New_ok.
  - apply New_ok.
  - done.
  - intros d Hd. unfold New, New_options. rewrite foldl_app. simpl.
    rewrite (bool_decide_eq_true_2 _ Hd). simpl. fold defaults. fold configured.
    by destruct (KeyFunc configured) eqn:E.
  - unfold New, New_options. rewrite foldl_app. simpl.
    by case_bool_decide.
  - intros d Hd.
    assert (Hid : ∀ t, Options_ApplyTo (mkOptions d None) t = t).
    { intros t. unfold Options_ApplyTo. cbn [TTL KeyFunc].
      by rewrite bool_decide_eq_false_2 by lia. }
    unfold New, New_options. rewrite foldl_app. cbn [foldl ApplyTo].
    by rewrite Hid.
Qed.

(** C10, as amended. [DefaultKeyFunc] is a total function of the key:
    a string key is returned verbatim, a byte sequence as the string of its
    bytes, an [int] or [int64] key as its decimal text, and every other key,
    the other integer kinds included, as what [dump.ForHash] prints for it;
    equal keys get equal strings. *)
Theorem DefaultKeyFunc_cases :
  (∀ s, DefaultKeyFunc ForHash (KString s) = s) ∧
  (∀ b, DefaultKeyFunc ForHash (KBytes b) = String.string_of_list_byte b) ∧
  (∀ k, DefaultKeyFunc ForHash (KInt k) = pretty k) ∧
  (∀ k, DefaultKeyFunc ForHash (KInt64 k) = pretty k) ∧
  (∀ ty k, DefaultKeyFunc ForHash (KOtherInt ty k) = ForHash (KOtherInt ty k)) ∧
  (∀ ty s, DefaultKeyFunc ForHash (KOther ty s) = ForHash (KOther ty s)) ∧
  (∀ k1 k2, k1 = k2 → DefaultKeyFunc ForHash k1 = DefaultKeyFunc ForHash k2).
Proof. repeat split; try done. by intros k1 k2 ->. Qed.

End cache_claims.

Section render_claims.

Context {Obj : Type} (DeepCopy : Obj → Obj).

Lemma on_cache_unfold {A} (m : M (defaultCache Slice) A) (s : rstate (Obj:=Obj)) c :
  self s = Some (mkRender (Some c)) →
  on_cache m s =
    match m c with
    | Some (a, c') => Some (a, mkRState (arrays s) (Some (mkRender (Some c'))))
    | None => None
    end.
Proof. intros Hs. unfold on_cache. by rewrite Hs. Qed.

(** C8. On an initialized render cache: storing an explicit nil sequence
    writes nil into the entry and allocates no array, and a [Get] of that
    key up to the expiration returns [(nil, true)]; a key with no entry
    gives [(nil, false)], which differs in the flag; and a hit on a stored
    non-nil sequence returns a newly allocated array holding the [DeepCopy]
    of each stored element, the stored array being left as it was. *)
Theorem renderCache_nil_is_a_hit (s : rstate (Obj:=Obj)) (c : defaultCache Slice) :
  self s = Some (mkRender (Some c)) →
  cache_ok c →
  ∃ f, keyFunc c = Some f ∧
    (∀ now key, ∃ c',
       let s' := mkRState (arrays s) (Some (mkRender (Some c'))) in
       renderCache_Set DeepCopy now key None s = Some (tt, s') ∧
       entries c' = <[f key := mkEntry None (now + ttl c)]> (entries c) ∧
       ∀ now', now' ≤ now + ttl c →
         renderCache_Get DeepCopy now' key s' = Some ((None, true), s')) ∧
    (∀ now key, entries c !! f key = None →
       renderCache_Get DeepCopy now key s = Some ((None, false), s)) ∧
    ((None : Slice), true) ≠ (None, false) ∧
    (∀ now key e l objs,
       entries c !! f key = Some e → now ≤ expiration e →
       value e = Some l → arrays s !! l = Some objs →
       ∃ l', (l' ∉ dom (arrays s)) ∧ l' ≠ l ∧
         renderCache_Get DeepCopy now key s =
           Some ((Some l', true),
                 mkRState (<[l' := map DeepCopy objs]> (arrays s)) (self s))).
Proof.
  intros Hs [Httl [f Hf]]. exists f. split; [done|].
  split; [|split; [|split]].
  - intros now key. eexists. split; [|split].
    + unfold renderCache_Set, bind, gets. rewrite Hs. simpl.
      rewrite (on_cache_unfold _ _ _ Hs). by rewrite (Set_unfold _ _ _ _ _ Hf).
    + done.
    + intros now' Hnow'. unfold renderCache_Get, bind, gets, on_cache. simpl.
      erewrite Get_unfold by done. simpl.
      rewrite lookup_insert_eq. simpl.
      by rewrite bool_decide_eq_false_2 by lia.
  - intros now key Hk. unfold renderCache_Get, bind, gets. rewrite Hs. simpl.
    rewrite (on_cache_unfold _ _ _ Hs). rewrite (Get_unfold _ _ _ _ Hf).
    rewrite Hk. simpl. destruct s as [h r]. simpl in *. by subst r.
  - done.
  - intros now key e l objs Hk He Hv Hl.
    exists (fresh (dom (arrays s))). split; [apply is_fresh|]. split.
    { intros Heq. apply (is_fresh (dom (arrays s))). rewrite Heq.
      by eapply elem_of_dom_2. }
    unfold renderCache_Get, bind, gets. rewrite Hs. simpl.
    rewrite (on_cache_unfold _ _ _ Hs). rewrite (Get_unfold _ _ _ _ Hf).
    rewrite Hk. rewrite bool_decide_eq_false_2 by lia. simpl. rewrite Hv.
    unfold load, bind, gets. simpl. rewrite Hl. simpl.
    destruct s as [h r]. simpl in *. by subst r.
Qed.

End render_claims.

(** ** Instances and counterexamples for the cache *)

Lemma Set_then_Get_witness :
  let c := New (T:=Z) spewForHash [WithTTL (100 * Millisecond)] in
  ∃ f c', keyFunc c = Some f ∧
    Set_ 0 (KString "k") 7 c = Some (tt, c') ∧
    Get 100000000 (KString "k") c' = Some ((7, true), c').
Proof.
  intros c.
  destruct (Set_then_Get c 0 100000000 (KString "k") 7)
    as (f & c' & H1 & H2 & _ & _ & _ & _ & H3 & _).
  - split; [by vm_compute | by eexists].
  - vm_compute. discriminate.
  - eauto.
Defined.

(** The test "should expire entries after TTL": a 100 ms cache, read at
    once and after 150 ms. *)
Example cache_expires_after_ttl :
  fst <$>
    (let* _ := Set_ 0 (KString "expiring-key") "pod" in
     let* r1 := Get 0 (KString "expiring-key") in
     let* r2 := Get (150 * Millisecond) (KString "expiring-key") in
     ret (r1, r2))
      (New (T:=string) spewForHash [WithTTL (100 * Millisecond)])
  = Some (("pod", true), ("", false)).
Proof. vm_compute. reflexivity. Qed.

(** The test "should use custom KeyFunc when provided": two keys with the
    same normalized string share one entry, and the last write wins. *)
Example cache_key_aliasing :
  fst <$>
    (let* _ := Set_ 0 (KOther "customSpec" "/path1") "result1" in
     let* _ := Set_ 0 (KOther "customSpec2" "/path1") "result2" in
     let* r := Get 0 (KOther "customSpec" "/path1") in
     let* n := gets (λ c, size (entries c)) in
     ret (r, n))
      (New (T:=string) spewForHash
         [WithTTL (5 * Minute);
          WithKeyFunc (Some (λ key, match key with KOther _ p => p | _ => "" end))])
  = Some (("result2", true), 1%nat).
Proof. vm_compute. reflexivity. Qed.

(** C2 as stated fails at [now = expiresAt]: the entry is still returned. *)
Lemma Get_at_expiration_is_a_hit :
  let c := mkCache (T:=Z) {["k" := mkEntry 7 100]} 60 (Some (DefaultKeyFunc spewForHash)) in
  entries c !! "k" = Some (mkEntry 7 100) ∧
  (expiration (mkEntry 7 100) <= 100)%Z ∧
  Get 100 (KString "k") c = Some ((7, true), c) ∧
  Get 100 (KString "k") c ≠ Some ((zero, false), c).
Proof. vm_compute. repeat split; discriminate. Qed.

Lemma Get_absent_or_expired_witness :
  let c := mkCache (T:=Z) {["k" := mkEntry 7 100]} 60 (Some (DefaultKeyFunc spewForHash)) in
  Get 101 (KString "k") c = Some ((0, false), c) ∧
  Get 101 (KString "other") c = Some ((0, false), c).
Proof.
  intros c. split.
  - apply (Get_absent_or_expired c (DefaultKeyFunc spewForHash) 101 (KString "k"));
      [reflexivity | vm_compute; reflexivity].
  - apply (Get_absent_or_expired c (DefaultKeyFunc spewForHash) 101 (KString "other"));
      [reflexivity | vm_compute; exact I].
Defined.

(** C3 as stated fails at [expiresAt = now]: [Sync] keeps the entry. *)
Lemma Sync_at_expiration_keeps_entry :
  let c := mkCache (T:=Z) {["k" := mkEntry 7 100]} 60 (Some (DefaultKeyFunc spewForHash)) in
  (expiration (mkEntry 7 100) <= 100)%Z ∧
  ∃ c', Sync 100 c = Some (tt, c') ∧
        entries c' !! "k" = Some (mkEntry 7 100) ∧
        size (entries c') = size (entries c).
Proof. split; [vm_compute; discriminate|]. eexists. by vm_compute. Qed.

Lemma Sync_removes_expired_witness :
  let c := mkCache (T:=Z) {["k" := mkEntry 7 100; "j" := mkEntry 8 200]} 60
             (Some (DefaultKeyFunc spewForHash)) in
  ∃ c', Sync 101 c = Some (tt, c') ∧
        entries c' !! "k" = None ∧
        entries c' !! "j" = Some (mkEntry 8 200) ∧
        (size (entries c') < size (entries c))%nat.
Proof.
  intros c.
  destruct (Sync_removes_expired c 101) as (c' & Hrun & _ & _ & Hgone & Hkept & _ & Hsize).
  exists c'. split; [exact Hrun|]. split; [|split].
  - apply (Hgone "k" (mkEntry 7 100)); [reflexivity | by vm_compute].
  - apply (Hkept "j" (mkEntry 8 200)); [reflexivity | vm_compute; discriminate].
  - apply (Hsize "k" (mkEntry 7 100)); [reflexivity | by vm_compute].
Defined.

Lemma New_never_rejects_witness :
  ttl (New (T:=Z) spewForHash [WithTTL 0]) = defaultTTL ∧
  ttl (New (T:=Z) spewForHash [WithTTL (-10000000000)]) = defaultTTL ∧
  New (T:=Z) spewForHash [StructOption (mkOptions (-1) None)] = New spewForHash [].
Proof.
  destruct (New_never_rejects spewForHash (T:=Z) [])
    as (_ & _ & _ & _ & _ & _ & Httl & _ & Hstruct).
  split; [|split].
  - apply (Httl 0). lia.
  - apply (Httl (-10000000000)). lia.
  - apply (Hstruct (-1)). lia.
Defined.

Lemma DefaultKeyFunc_cases_witness :
  DefaultKeyFunc spewForHash (KInt 42) = DefaultKeyFunc spewForHash (KInt (40 + 2)).
Proof.
  destruct (DefaultKeyFunc_cases spewForHash) as (_ & _ & _ & _ & _ & _ & Hstable).
  apply Hstable. reflexivity.
Defined.

(** The default normalizer on the keys the tests use. *)
Example DefaultKeyFunc_examples :
  DefaultKeyFunc spewForHash (KString "key1") = "key1" ∧
  DefaultKeyFunc spewForHash (KBytes [Byte.x6b; Byte.x31]) = "k1" ∧
  DefaultKeyFunc spewForHash (KInt 1) = "1" ∧
  DefaultKeyFunc spewForHash (KInt64 (-200)) = "-200".
Proof. by vm_compute. Qed.

(** C10 as stated fails on an integer kind other than [int] and [int64]:
    an [int32] key goes to [dump.ForHash], whose text is not the decimal. *)
Lemma DefaultKeyFunc_int32_not_decimal :
  DefaultKeyFunc spewForHash (KOtherInt Int32 5) = "(int32)5" ∧
  DefaultKeyFunc spewForHash (KOtherInt Int32 5) ≠ pretty 5.
Proof. by vm_compute. Qed.

Lemma renderCache_nil_is_a_hit_witness :
  let s := mkRState (Obj:=nat) {[1%positive := [1%nat; 2%nat]]}
             (Some (NewRenderCache spewForHash [])) in
  ∃ s', renderCache_Set S 0 (KString "k") None s = Some (tt, s') ∧
        renderCache_Get S 1 (KString "k") s' = Some ((None, true), s') ∧
        renderCache_Get S 1 (KString "j") s = Some ((None, false), s).
Proof.
  intros s.
  destruct (renderCache_nil_is_a_hit S s (New spewForHash []))
    as (f & Hf & Hset & Hmiss & _);
    [reflexivity | split; [by vm_compute | by eexists] |].
  destruct (Hset 0 (KString "k")) as (c' & H1 & _ & H2).
  eexists. split; [exact H1|]. split.
  - apply H2. vm_compute. discriminate.
  - apply Hmiss. injection Hf as <-. reflexivity.
Defined.

(** * Properties of deep clone and deep merge *)

Import maps.

(** ** Running the monad *)

Lemma bind_Some {S A B} (m : M S A) (k : A → M S B) s a s' :
  m s = Some (a, s') → bind m k s = k a s'.
Proof. unfold bind. by intros ->. Qed.

Lemma bind_inv {S A B} (m : M S A) (k : A → M S B) s r :
  bind m k s = Some r → ∃ a s', m s = Some (a, s') ∧ k a s' = Some r.
Proof. unfold bind. destruct (m s) as [[a s']|]; [eauto | done]. Qed.

Lemma alloc_unfold o (h : gmap loc obj) :
  alloc o h = Some (fresh (dom h), <[fresh (dom h) := o]> h).
Proof. reflexivity. Qed.

Lemma fresh_lookup (h : gmap loc obj) : h !! fresh (dom h) = None.
Proof. apply not_elem_of_dom, is_fresh. Qed.

Lemma alloc_extends o (h : gmap loc obj) : h ⊆ <[fresh (dom h) := o]> h.
Proof. apply insert_subseteq, fresh_lookup. Qed.

Lemma load_map_unfold (h : gmap loc obj) l m :
  h !! l = Some (OMap m) → load_map l h = Some (m, h).
Proof. intros Hl. unfold load_map, bind, gets, ret. simpl. by rewrite Hl. Qed.

Lemma load_slice_unfold (h : gmap loc obj) s es :
  elems_of h s = Some es → load_slice s h = Some (es, h).
Proof.
  destruct s as [l|]; simpl; [|by intros [= <-]].
  unfold bind, gets, ret. simpl. destruct (h !! l) as [[|]|]; by intros [= <-].
Qed.

Lemma elems_of_weaken (h h' : gmap loc obj) s es :
  elems_of h s = Some es → h ⊆ h' → elems_of h' s = Some es.
Proof.
  destruct s as [l|]; simpl; [|done].
  destruct (h !! l) as [[|es0]|] eqn:Hl; try done. intros [= <-] Hsub.
  by rewrite (lookup_weaken _ _ _ _ Hl Hsub).
Qed.

Lemma elem_of_map_values (m : gmap string val) v :
  v ∈ (map_to_list m).*2 ↔ ∃ k, m !! k = Some v.
Proof.
  rewrite list_elem_of_fmap. split.
  - intros [[k v'] [-> Hin]]. exists k. by apply elem_of_map_to_list.
  - intros [k Hk]. exists (k, v). split; [done|]. by apply elem_of_map_to_list.
Qed.

Lemma forallb_elem_of {A} (f : A → bool) (l : list A) :
  forallb f l = true ↔ ∀ x, x ∈ l → f x = true.
Proof.
  rewrite forallb_forall. split; intros H x Hx; apply H; by apply list_elem_of_In.
Qed.

(** ** Well-formed trees *)

Lemma wf_map_inv b n h l :
  wf b (S n) h (VMap (Some l)) = true →
  ∃ m, h !! l = Some (OMap m) ∧ ∀ k v, m !! k = Some v → wf b n h v = true.
Proof.
  simpl. destruct (h !! l) as [[m|]|]; try done. intros Hall. exists m.
  split; [done|]. intros k v Hk. rewrite forallb_elem_of in Hall.
  apply Hall, elem_of_map_values. eauto.
Qed.

Lemma wf_map_intro b n (h : gmap loc obj) l m :
  h !! l = Some (OMap m) →
  (∀ k v, m !! k = Some v → wf b n h v = true) →
  wf b (S n) h (VMap (Some l)) = true.
Proof.
  intros Hl Hall. simpl. rewrite Hl. apply forallb_elem_of.
  intros v [k Hk]%elem_of_map_values. eauto.
Qed.

Lemma has_kind_refs k v : has_kind k v = true → refs v = [].
Proof. by destruct v. Qed.

Lemma wf_weaken b n : ∀ (h h' : gmap loc obj) v,
  wf b n h v = true → h ⊆ h' → wf b n h' v = true.
Proof.
  induction n as [|n IH]; intros h h' v Hwf Hsub; [done|].
  destruct v as [| |[l|]|[l|]|k [l|]|ty [l|]|]; simpl in *; try done.
  - destruct (h !! l) as [[m|]|] eqn:Hl; try done.
    rewrite (lookup_weaken _ _ _ _ Hl Hsub).
    rewrite forallb_elem_of in *. eauto.
  - destruct (h !! l) as [[|es]|] eqn:Hl; try done.
    rewrite (lookup_weaken _ _ _ _ Hl Hsub).
    rewrite forallb_elem_of in *. eauto.
  - destruct (h !! l) as [[|es]|] eqn:Hl; try done.
    by rewrite (lookup_weaken _ _ _ _ Hl Hsub).
  - destruct (h !! l) as [[|es]|] eqn:Hl; try (by rewrite andb_false_r in Hwf).
    by rewrite (lookup_weaken _ _ _ _ Hl Hsub).
Qed.

Lemma wf_strict_lenient n : ∀ (h : gmap loc obj) v,
  wf true n h v = true → wf false n h v = true.
Proof.
  induction n as [|n IH]; intros h v Hwf; [done|].
  destruct v as [| |[l|]|[l|]|k [l|]|ty [l|]|]; simpl in *; try done.
  - destruct (h !! l) as [[m|]|]; try done. rewrite forallb_elem_of in *. eauto.
  - destruct (h !! l) as [[|es]|]; try done. rewrite forallb_elem_of in *. eauto.
Qed.

Lemma wf_deeper b n : ∀ (h : gmap loc obj) v,
  wf b n h v = true → wf b (S n) h v = true.
Proof.
  induction n as [|n IH]; intros h v Hwf; [done|].
  destruct v as [| |[l|]|[l|]|k [l|]|ty [l|]|]; try done.
  - apply wf_map_inv in Hwf as (m & Hl & Hall).
    eapply wf_map_intro; eauto.
  - change (wf b (S n) h (VAnySlice (Some l))) with
      (match h !! l with
       | Some (OArray elems) => forallb (wf b n h) elems
       | _ => false
       end) in Hwf.
    change (wf b (S (S n)) h (VAnySlice (Some l))) with
      (match h !! l with
       | Some (OArray elems) => forallb (wf b (S n) h) elems
       | _ => false
       end).
    destruct (h !! l) as [[|es]|]; try done. rewrite forallb_elem_of in *. eauto.
Qed.

(** What a strict tree refers to is allocated, and holds strict trees or
    scalars. *)
Lemma wf_strict_refs n (h : gmap loc obj) v l :
  wf true n h v = true → l ∈ refs v →
  ∃ n' o, n = S n' ∧ h !! l = Some o ∧
    ∀ v', v' ∈ contents o → wf true n' h v' = true ∨ refs v' = [].
Proof.
  destruct n as [|n]; [done|]. intros Hwf Hl. exists n.
  destruct v as [| |[l0|]|[l0|]|k [l0|]|ty [l0|]|]; simpl in *;
    try (by apply elem_of_nil in Hl); try done;
    apply list_elem_of_singleton in Hl as ->.
  - destruct (h !! l0) as [[m|]|]; try done. eexists. split; [done|].
    split; [done|]. intros v' Hv'. left. rewrite forallb_elem_of in Hwf. eauto.
  - destruct (h !! l0) as [[|es]|]; try done. eexists. split; [done|].
    split; [done|]. intros v' Hv'. left. rewrite forallb_elem_of in Hwf. eauto.
  - destruct (h !! l0) as [[|es]|]; try done. eexists. split; [done|].
    split; [done|]. intros v' Hv'. right. rewrite forallb_elem_of in Hwf.
    eapply has_kind_refs. eauto.
Qed.

(** ** Structural equality *)

Lemma Forall2_impl_elem_of {A B} (P Q : A → B → Prop) (l : list A) (k : list B) :
  Forall2 P l k → (∀ x y, x ∈ l → P x y → Q x y) → Forall2 Q l k.
Proof.
  induction 1 as [|x y l k Hxy _ IH]; intros Himpl; constructor.
  - apply Himpl; [left | done].
  - apply IH. intros x' y' Hx'. apply Himpl. by right.
Qed.

Lemma sim_weaken n : ∀ (h1 h1' h2 h2' : gmap loc obj) v1 v2,
  sim n h1 v1 h2 v2 → h1 ⊆ h1' → h2 ⊆ h2' → sim n h1' v1 h2' v2.
Proof.
  induction n as [|n IH]; intros h1 h1' h2 h2' v1 v2 Hsim Hs1 Hs2; [done|].
  destruct v1 as [| |[l1|]|s1|k1 s1|ty1 s1|], v2 as [| |[l2|]|s2|k2 s2|ty2 s2|];
    simpl in *; try done.
  - destruct Hsim as (m1 & m2 & Hl1 & Hl2 & Hall). exists m1, m2.
    split; [by eapply lookup_weaken|]. split; [by eapply lookup_weaken|].
    intros k. specialize (Hall k).
    destruct Hall; constructor. eauto.
  - destruct Hsim as (es1 & es2 & He1 & He2 & Hall). exists es1, es2.
    split; [by eapply elems_of_weaken|]. split; [by eapply elems_of_weaken|].
    eapply Forall2_impl; [done|]. intros x y Hxy. cbv beta in Hxy.
    eapply IH; eassumption.
  - destruct Hsim as (-> & es & He1 & He2). split; [done|]. exists es.
    split; by eapply elems_of_weaken.
  - destruct Hsim as (-> & es & He1 & He2). split; [done|]. exists es.
    split; by eapply elems_of_weaken.
Qed.

(** The source side of [sim] only looks at the tree below the source. *)
Lemma sim_shrink_l b n : ∀ (h0 h1 h2 : gmap loc obj) v v',
  wf b n h0 v = true → h0 ⊆ h1 → sim n h1 v h2 v' → sim n h0 v h2 v'.
Proof.
  induction n as [|n IH]; intros h0 h1 h2 v v' Hwf Hsub Hsim; [done|].
  destruct v as [| |[l1|]|[l1|]|k1 [l1|]|ty1 [l1|]|],
           v' as [| |[l2|]|s2|k2 s2|ty2 s2|];
    simpl in *; try done.
  - destruct Hsim as (m1 & m2 & Hl1 & Hl2 & Hall).
    destruct (h0 !! l1) as [[m|]|] eqn:Hl0; try done.
    pose proof (lookup_weaken _ _ _ _ Hl0 Hsub) as Hl1'.
    rewrite Hl1 in Hl1'. injection Hl1' as ->.
    exists m, m2. split; [done|]. split; [done|]. intros k.
    specialize (Hall k). rewrite forallb_elem_of in Hwf.
    destruct (m !! k) as [v1|] eqn:Hk1, (m2 !! k) as [v2|] eqn:Hk2;
      inversion Hall; subst; constructor.
    eapply IH; [|done..]. apply Hwf, elem_of_map_values. eauto.
  - destruct Hsim as (es1 & es2 & He1 & He2 & Hall).
    destruct (h0 !! l1) as [[|es]|] eqn:Hl0; try done.
    rewrite (lookup_weaken _ _ _ _ Hl0 Hsub) in He1. injection He1 as <-.
    exists es, es2. split; [done|]. split; [done|].
    rewrite forallb_elem_of in Hwf.
    eapply Forall2_impl_elem_of; [done|]. intros x y Hx Hxy. cbv beta in Hxy.
    eapply IH; eauto.
  - destruct Hsim as (es1 & es2 & [= <-] & He2 & Hall).
    apply Forall2_nil_inv_l in Hall as ->. exists [], []. by repeat split.
  - destruct Hsim as (-> & es & He1 & He2). split; [done|]. exists es.
    split; [|done].
    destruct (h0 !! l1) as [[|es0]|] eqn:Hl0; try done.
    by rewrite (lookup_weaken _ _ _ _ Hl0 Hsub) in He1.
  - destruct Hsim as (-> & es & He1 & He2). split; [done|]. exists es.
    split; [|done].
    destruct (h0 !! l1) as [[|es0]|] eqn:Hl0;
      try (by rewrite andb_false_r in Hwf).
    by rewrite (lookup_weaken _ _ _ _ Hl0 Hsub) in He1.
Qed.

Lemma sim_refl b n : ∀ (h : gmap loc obj) v, wf b n h v = true → sim n h v h v.
Proof.
  induction n as [|n IH]; intros h v Hwf; [done|].
  destruct v as [| |[l|]|[l|]|k [l|]|ty [l|]|]; simpl in *; try done.
  - destruct (h !! l) as [[m|]|] eqn:Hl; try done. exists m, m.
    split; [done|]. split; [done|]. intros k. rewrite forallb_elem_of in Hwf.
    destruct (m !! k) as [v|] eqn:Hk; constructor.
    apply IH, Hwf, elem_of_map_values. eauto.
  - destruct (h !! l) as [[|es]|] eqn:Hl; try done. exists es, es.
    split; [done|]. split; [done|]. rewrite forallb_elem_of in Hwf.
    apply Forall2_same_length_lookup_2; [done|].
    intros i x y Hx Hy. simplify_eq. apply IH, Hwf.
    by eapply list_elem_of_lookup_2.
  - exists [], []. by repeat split.
  - split; [done|]. destruct (h !! l) as [[|es]|]; try done. by exists es.
  - split; [done|]. by exists [].
  - split; [done|].
    destruct (h !! l) as [[|es]|]; try (by rewrite andb_false_r in Hwf).
    by exists es.
  - split; [done|]. by exists [].
Qed.

(** ** Reachable containers *)

Lemma reachable_no_refs (h : gmap loc obj) v l : refs v = [] → ¬ reachable h v l.
Proof.
  intros Hr Hreach. destruct Hreach as [v l Hl | v l o v' l' Hl _ _ _];
    rewrite Hr in Hl; by apply elem_of_nil in Hl.
Qed.

(** Below a strict tree, nothing is reached that was not there already. *)
Lemma reachable_shrink (h h' : gmap loc obj) v l :
  reachable h' v l → ∀ n, wf true n h v = true → h ⊆ h' → reachable h v l.
Proof.
  induction 1 as [v l Hl | v l o v' l' Hl Ho Hv' Hreach IH]; intros n Hwf Hsub.
  - by apply reachable_here.
  - destruct (wf_strict_refs _ _ _ _ Hwf Hl) as (n' & o0 & -> & Ho0 & Hc).
    pose proof (lookup_weaken _ _ _ _ Ho0 Hsub) as Ho'.
    rewrite Ho in Ho'. injection Ho' as <-.
    destruct (Hc v' Hv') as [Hwf' | Hnone].
    + eapply reachable_step; eauto.
    + by apply reachable_no_refs in Hreach.
Qed.

Lemma reachable_allocated (h : gmap loc obj) v l :
  reachable h v l → ∀ n, wf true n h v = true → l ∈ dom h.
Proof.
  induction 1 as [v l Hl | v l o v' l' Hl Ho Hv' Hreach IH]; intros n Hwf.
  - destruct (wf_strict_refs _ _ _ _ Hwf Hl) as (n' & o0 & -> & Ho0 & Hc).
    by eapply elem_of_dom_2.
  - destruct (wf_strict_refs _ _ _ _ Hwf Hl) as (n' & o0 & -> & Ho0 & Hc).
    rewrite Ho in Ho0. injection Ho0 as <-.
    destruct (Hc v' Hv') as [Hwf' | Hnone]; [eauto|].
    by apply reachable_no_refs in Hreach.
Qed.

(** The view of a strict tree depends only on the containers below it. *)
Lemma sim_frame n : ∀ (h h' : gmap loc obj) v,
  wf true n h v = true →
  (∀ l, reachable h v l → h' !! l = h !! l) →
  sim n h v h' v.
Proof.
  induction n as [|n IH]; intros h h' v Hwf Hsame; [done|].
  destruct v as [| |[l|]|[l|]|k [l|]|ty [l|]|]; simpl in *; try done.
  - destruct (h !! l) as [[m|]|] eqn:Hl; try done. exists m, m.
    split; [done|]. split.
    { rewrite Hsame, Hl; [done|]. apply reachable_here. simpl. by left. }
    intros k. rewrite forallb_elem_of in Hwf.
    destruct (m !! k) as [v|] eqn:Hk; constructor.
    assert (Hv : v ∈ (map_to_list m).*2) by (apply elem_of_map_values; eauto).
    apply IH; [by apply Hwf|]. intros l' Hl'. apply Hsame.
    eapply reachable_step; [simpl; by left | done | done | done].
  - destruct (h !! l) as [[|es]|] eqn:Hl; try done. exists es, es.
    split; [done|]. split.
    { rewrite Hsame, Hl; [done|]. apply reachable_here. simpl. by left. }
    rewrite forallb_elem_of in Hwf.
    apply Forall2_same_length_lookup_2; [done|].
    intros i x y Hx Hy. simplify_eq.
    assert (Hv : x ∈ es) by (by eapply list_elem_of_lookup_2).
    apply IH; [by apply Hwf|]. intros l' Hl'. apply Hsame.
    eapply reachable_step; [simpl; by left | done | done | done].
  - exists [], []. by repeat split.
  - split; [done|]. destruct (h !! l) as [[|es]|] eqn:Hl; try done. exists es.
    split; [done|]. rewrite Hsame, Hl; [done|]. apply reachable_here. simpl. by left.
  - split; [done|]. by exists [].
Qed.

(** ** The loops *)

(** A map loop whose body always returns and only extends the store does
    so itself; each entry's result was computed by the body in a store
    between the initial and the final one. *)
Lemma range_entries_ok body (kvs : list (string * val)) :
  NoDup kvs.*1 →
  ∀ (h0 : gmap loc obj) (acc : gmap string val),
  (∀ k v h, (k, v) ∈ kvs → h0 ⊆ h →
     ∃ r h', body k v h = Some (r, h') ∧ h ⊆ h') →
  ∃ res h1,
    range_entries body kvs acc h0 = Some (res, h1) ∧ h0 ⊆ h1 ∧
    (∀ k, k ∉ kvs.*1 → res !! k = acc !! k) ∧
    (∀ k v, (k, v) ∈ kvs →
       ∃ h h' r, h0 ⊆ h ∧ h ⊆ h' ∧ h' ⊆ h1 ∧ body k v h = Some (r, h') ∧
         res !! k = match r with Some x => Some x | None => acc !! k end).
Proof.
  induction kvs as [|[k v] kvs IH]; intros Hnd h0 acc Hbody.
  - exists acc, h0. repeat split; try done. intros k v Hin. by apply elem_of_nil in Hin.
  - apply NoDup_cons in Hnd as [Hk Hnd].
    destruct (Hbody k v h0) as (r & h' & Hr & Hsub); [left | done |].
    set (acc' := match r with Some r => <[k := r]> acc | None => acc end).
    destruct (IH Hnd h' acc') as (res & h1 & Hrun & Hsub1 & Hout & Hin).
    { intros k0 v0 h Hin0 Hh. apply Hbody; [by right | by etrans]. }
    exists res, h1. split; [|split; [by etrans|split]].
    + simpl. by rewrite (bind_Some _ _ _ _ _ Hr).
    + intros k0 Hk0. rewrite fmap_cons, not_elem_of_cons in Hk0.
      destruct Hk0 as [Hne Hk0]. rewrite (Hout k0 Hk0). unfold acc'.
      destruct r; [by rewrite lookup_insert_ne|done].
    + intros k0 v0 [[= -> ->]|Hin0]%elem_of_cons.
      * exists h0, h', r. repeat split; try done.
        rewrite (Hout k Hk). unfold acc'. destruct r; [by rewrite lookup_insert_eq|done].
      * destruct (Hin k0 v0 Hin0) as (h & h'' & r0 & H1 & H2 & H3 & H4 & H5).
        exists h, h'', r0. repeat split; try done; [by etrans|].
        rewrite H5. destruct r0; [done|]. unfold acc'.
        assert (k ≠ k0).
        { intros ->. apply Hk. apply list_elem_of_fmap. by exists (k0, v0). }
        destruct r; [by rewrite lookup_insert_ne|done].
Qed.

Lemma clone_elems_ok clone (es : list val) :
  ∀ (h0 : gmap loc obj),
  (∀ e h, e ∈ es → h0 ⊆ h → ∃ e' h', clone e h = Some (e', h') ∧ h ⊆ h') →
  ∃ es' h1,
    clone_elems clone es h0 = Some (es', h1) ∧ h0 ⊆ h1 ∧
    Forall2 (λ e e', ∃ h h', h0 ⊆ h ∧ h ⊆ h' ∧ h' ⊆ h1 ∧
                       clone e h = Some (e', h')) es es'.
Proof.
  induction es as [|e es IH]; intros h0 Hclone.
  - exists [], h0. by repeat split.
  - destruct (Hclone e h0) as (e' & h' & He & Hsub); [left | done |].
    destruct (IH h') as (es' & h1 & Hrun & Hsub1 & Hall).
    { intros e0 h Hin0 Hh. apply Hclone; [by right | by etrans]. }
    exists (e' :: es'), h1. split; [|split; [by etrans|]].
    + simpl. rewrite (bind_Some _ _ _ _ _ He). by rewrite (bind_Some _ _ _ _ _ Hrun).
    + constructor.
      * exists h0, h'. by repeat split.
      * eapply Forall2_impl; [done|].
        intros x y (h & h'' & H1 & H2 & H3 & H4). exists h, h''.
        repeat split; try done. by etrans.
Qed.

(** ** Deep clone *)

Lemma clone_post_transport b n (h0 h h1 h2 : gmap loc obj) v v' :
  wf b n h0 v = true → h0 ⊆ h → h1 ⊆ h2 →
  clone_post b n h v h1 v' → clone_post b n h0 v h2 v'.
Proof.
  intros Hwf H0 H12 (Hsub & Hsim & Hwf' & Hfresh). repeat split.
  - by do 2 (etrans; [|done]).
  - eapply sim_shrink_l; [done..|]. by eapply sim_weaken.
  - by eapply wf_weaken.
  - intros -> l Hl Hdom. eapply Hfresh; [done| |].
    + eapply reachable_shrink; done.
    + by eapply (subseteq_dom h0 h).
Qed.

Lemma clone_entry_inv clone k v (h : gmap loc obj) r h' :
  clone_entry clone k v h = Some (r, h') →
  ∃ v', r = Some v' ∧ clone v h = Some (v', h').
Proof.
  unfold clone_entry. intros (v' & h1 & Hc & Hret)%bind_inv.
  injection Hret as <- <-. eauto.
Qed.

Lemma not_elem_of_map_keys (m : gmap string val) k :
  m !! k = None → k ∉ (map_to_list m).*1.
Proof.
  intros Hk ([k' v] & -> & Hin%elem_of_map_to_list)%list_elem_of_fmap.
  simpl in Hk. congruence.
Qed.

Lemma fresh_not_in_smaller (h h1 : gmap loc obj) :
  h ⊆ h1 → fresh (dom h1) ∉ dom h.
Proof. intros Hsub Hin. apply (is_fresh (dom h1)). by apply (subseteq_dom h h1). Qed.

Lemma DeepCloneMap_with_ok b n clone (h : gmap loc obj) l m :
  clones_ok b n clone →
  h !! l = Some (OMap m) →
  (∀ k v, m !! k = Some v → wf b n h v = true) →
  ∃ r rm h',
    DeepCloneMap_with clone (Some l) h = Some (Some r, h') ∧
    h ⊆ h' ∧ (r ∉ dom h) ∧ h' !! r = Some (OMap rm) ∧
    ∀ k, option_Forall2 (λ v v', clone_post b n h v h' v') (m !! k) (rm !! k).
Proof.
  intros Hclone Hl Hwf.
  destruct (range_entries_ok (clone_entry clone) (map_to_list m)
              (NoDup_fst_map_to_list m) h ∅)
    as (res & h1 & Hrun & Hsub & Hout & Hin).
  { intros k v h0 Hkv%elem_of_map_to_list Hh0.
    destruct (Hclone h0 v) as (v' & h' & Hc & Hpost & _).
    { eapply wf_weaken; eauto. }
    exists (Some v'), h'. split; [|done].
    unfold clone_entry. by rewrite (bind_Some _ _ _ _ _ Hc). }
  exists (fresh (dom h1)), res, (<[fresh (dom h1) := OMap res]> h1).
  split; [|split; [|split; [|split]]].
  - unfold DeepCloneMap_with.
    rewrite (bind_Some _ _ _ _ _ (load_map_unfold _ _ _ Hl)).
    rewrite (bind_Some _ _ _ _ _ Hrun).
    by rewrite (bind_Some _ _ _ _ _ (alloc_unfold _ _)).
  - etrans; [done|]. apply alloc_extends.
  - by apply fresh_not_in_smaller.
  - apply lookup_insert_eq.
  - intros k. destruct (m !! k) as [v|] eqn:Hk.
    + destruct (Hin k v) as (ha & hb & r & Ha & Hab & Hb & Hbody & Hres).
      { by apply elem_of_map_to_list. }
      apply clone_entry_inv in Hbody as (v' & -> & Hc). rewrite Hres.
      constructor.
      destruct (Hclone ha v) as (v'' & h'' & Hc' & Hpost).
      { eapply wf_weaken; eauto. }
      rewrite Hc in Hc'. injection Hc' as <- <-.
      eapply clone_post_transport; [by eapply Hwf | done | | done].
      etrans; [done|]. apply alloc_extends.
    + rewrite Hout by (by apply not_elem_of_map_keys). rewrite lookup_empty.
      constructor.
Qed.

Lemma clone_map_post b n (h h' : gmap loc obj) l r m rm :
  h !! l = Some (OMap m) → h' !! r = Some (OMap rm) →
  h ⊆ h' → r ∉ dom h →
  (∀ k, option_Forall2 (λ v v', clone_post b n h v h' v') (m !! k) (rm !! k)) →
  clone_post b (S n) h (VMap (Some l)) h' (VMap (Some r)).
Proof.
  intros Hl Hr Hsub Hfresh Hall. split; [done|]. split; [|split].
  - exists m, rm. split; [done|]. split; [done|]. intros k.
    destruct (Hall k) as [v v' (_ & Hsim & _)|]; by constructor.
  - eapply wf_map_intro; [done|]. intros k v' Hk. specialize (Hall k).
    rewrite Hk in Hall. inversion Hall as [v v'' (_ & _ & Hwf & _)|]. by subst.
  - intros Hb l0 Hreach.
    inversion Hreach as [? ? Hin | ? l1 o v' ? Hin Ho Hv' Hreach']; subst;
      simpl in Hin; apply list_elem_of_singleton in Hin as ->; [done|].
    rewrite Hr in Ho. injection Ho as <-. simpl in Hv'.
    apply elem_of_map_values in Hv' as [k Hk]. specialize (Hall k).
    rewrite Hk in Hall. inversion Hall as [v v'' (_ & _ & _ & Hf)|]. subst.
    by apply Hf.
Qed.

Lemma clone_slice_post b n (h h' : gmap loc obj) s r es es' :
  elems_of h s = Some es → h' !! r = Some (OArray es') →
  h ⊆ h' → r ∉ dom h →
  Forall2 (λ v v', clone_post b n h v h' v') es es' →
  clone_post b (S n) h (VAnySlice s) h' (VAnySlice (Some r)).
Proof.
  intros Hs Hr Hsub Hfresh Hall. split; [done|]. split; [|split].
  - exists es, es'. split; [done|]. split; [by simpl; rewrite Hr|].
    eapply Forall2_impl; [done|]. by intros v v' (_ & Hsim & _).
  - simpl. rewrite Hr. apply forallb_elem_of. apply Forall_forall.
    eapply Forall2_Forall_r; [done|]. apply Forall_forall.
    by intros v _ v' (_ & _ & Hwf & _).
  - intros Hb l0 Hreach.
    inversion Hreach as [? ? Hin | ? l1 o v' ? Hin Ho Hv' Hreach']; subst;
      simpl in Hin; apply list_elem_of_singleton in Hin as ->; [done|].
    rewrite Hr in Ho. injection Ho as <-. simpl in Hv'.
    assert (Forall (λ v', ∀ l, reachable h' v' l → l ∉ dom h) es') as Hf.
    { eapply Forall2_Forall_r; [done|]. apply Forall_forall.
      intros v _ v'' (_ & _ & _ & Hf). by apply Hf. }
    rewrite Forall_forall in Hf. by eapply Hf.
Qed.

Lemma wf_elems_of b n (h : gmap loc obj) s :
  wf b (S n) h (VAnySlice s) = true →
  ∃ es, elems_of h s = Some es ∧ ∀ e, e ∈ es → wf b n h e = true.
Proof.
  destruct s as [l|]; simpl.
  - destruct (h !! l) as [[|es]|]; try done. intros Hall. exists es.
    split; [done|]. by apply forallb_elem_of.
  - intros _. exists []. split; [done|]. intros e He. by apply elem_of_nil in He.
Qed.

Lemma copy_slice_unfold (h : gmap loc obj) s es :
  elems_of h s = Some es →
  copy_slice s h = Some (Some (fresh (dom h)), <[fresh (dom h) := OArray es]> h).
Proof.
  intros Hes. unfold copy_slice.
  rewrite (bind_Some _ _ _ _ _ (load_slice_unfold _ _ _ Hes)).
  by rewrite (bind_Some _ _ _ _ _ (alloc_unfold _ _)).
Qed.

(** A flat copy of a typed slice. *)
Lemma copy_typed_post b n (h : gmap loc obj) k s :
  wf b (S n) h (VTypedSlice k s) = true →
  ∃ es, elems_of h s = Some es ∧
    copy_slice s h = Some (Some (fresh (dom h)), <[fresh (dom h) := OArray es]> h) ∧
    clone_post b (S n) h (VTypedSlice k s)
      (<[fresh (dom h) := OArray es]> h) (VTypedSlice k (Some (fresh (dom h)))).
Proof.
  intros Hwf.
  assert (∃ es, elems_of h s = Some es ∧ forallb (has_kind k) es = true)
    as (es & Hes & Hkind).
  { destruct s as [l|]; simpl in *; [|by exists []].
    destruct (h !! l) as [[|es]|]; try done. by exists es. }
  exists es. split; [done|].
  set (r := fresh (dom h)). set (h' := <[r := OArray es]> h).
  assert (h ⊆ h') as Hsub by apply alloc_extends.
  split.
  { by apply copy_slice_unfold. }
  assert (h' !! r = Some (OArray es)) as Hr by apply lookup_insert_eq.
  split; [done|]. split; [|split].
  - split; [done|]. exists es. split; [done|]. by simpl; rewrite Hr.
  - simpl. by rewrite Hr.
  - intros _ l0 Hreach.
    inversion Hreach as [? ? Hin | ? l1 o v' ? Hin Ho Hv' Hreach']; subst;
      simpl in Hin; apply list_elem_of_singleton in Hin as ->;
      [apply is_fresh|].
    rewrite Hr in Ho. injection Ho as <-. simpl in Hv'.
    rewrite forallb_elem_of in Hkind.
    by apply reachable_no_refs in Hreach'; [|eapply has_kind_refs; eauto].
Qed.

Theorem DeepCloneValue_ok b n : clones_ok b n (DeepCloneValue n).
Proof.
  induction n as [|n IH]; intros h v Hwf; [done|].
  destruct v as [|sc|[l|]|s|k s|ty s|ty ts].
  - exists VNil, h. by repeat split; try done; intros _ l Hl%reachable_no_refs.
  - exists (VScalar sc), h.
    by repeat split; try done; intros _ l Hl%reachable_no_refs.
  - pose proof Hwf as (m & Hl & Hall)%wf_map_inv.
    destruct (DeepCloneMap_with_ok b n _ h l m IH Hl Hall)
      as (r & rm & h' & Hrun & Hsub & Hfresh & Hr & Hpost).
    exists (VMap (Some r)), h'. split.
    + cbn [DeepCloneValue]. by rewrite (bind_Some _ _ _ _ _ Hrun).
    + by eapply clone_map_post.
  - exists (VMap None), h.
    by repeat split; try done; intros _ l Hl%reachable_no_refs.
  - pose proof Hwf as (es & Hes & Hall)%wf_elems_of.
    destruct (clone_elems_ok (DeepCloneValue n) es h) as (es' & h1 & Hrun & Hsub & Hruns).
    { intros e h0 He Hh0. destruct (IH h0 e) as (e' & h' & Hc & Hp & _).
      { eapply wf_weaken; eauto. }
      eauto. }
    exists (VAnySlice (Some (fresh (dom h1)))), (<[fresh (dom h1) := OArray es']> h1).
    split.
    + cbn [DeepCloneValue].
      rewrite (bind_Some _ _ _ _ _ (load_slice_unfold _ _ _ Hes)).
      rewrite (bind_Some _ _ _ _ _ Hrun).
      by rewrite (bind_Some _ _ _ _ _ (alloc_unfold _ _)).
    + eapply clone_slice_post; [done | apply lookup_insert_eq | |
                                by apply fresh_not_in_smaller |].
      { etrans; [done|]. apply alloc_extends. }
      eapply Forall2_impl_elem_of; [done|].
      intros e e' He (ha & hb & Ha & Hab & Hb & Hc).
      destruct (IH ha e) as (e'' & h'' & Hc' & Hpost).
      { eapply wf_weaken; eauto. }
      rewrite Hc in Hc'. injection Hc' as <- <-.
      eapply clone_post_transport; [by apply Hall | done | | done].
      etrans; [done|]. apply alloc_extends.
  - destruct (copy_typed_post b n h k s Hwf) as (es & Hes & Hrun & Hpost).
    eexists _, _. split; [|exact Hpost].
    cbn [DeepCloneValue]. by rewrite (bind_Some _ _ _ _ _ Hrun).
  - assert (b = false ∧ ∃ es, elems_of h s = Some es) as [-> [es Hes]].
    { destruct b; [by destruct s|]. split; [done|].
      destruct s as [l|]; simpl in *; [|by exists []].
      destruct (h !! l) as [[|es]|]; try done. by exists es. }
    exists (VOtherSlice ty (Some (fresh (dom h)))), (<[fresh (dom h) := OArray es]> h).
    split.
    + cbn [DeepCloneValue].
      by rewrite (bind_Some _ _ _ _ _ (copy_slice_unfold _ _ _ Hes)).
    + split; [apply alloc_extends|]. split; [|split; [|done]].
      * split; [done|]. exists es. split; [done|].
        by simpl; rewrite lookup_insert_eq.
      * simpl. by rewrite lookup_insert_eq.
  - assert (b = false) as -> by (by destruct b).
    exists (VOpaque ty ts), h. by repeat split.
Qed.

(** ** Deep merge *)

Lemma as_map_Some v m : as_map v = Some m → v = VMap m.
Proof. destruct v; simpl; congruence. Qed.

Lemma merge_base_entry_runs n merge clone (h h0 : gmap loc obj) om k bv :
  merges_ok n merge → clones_ok false n clone →
  (∀ k v, om !! k = Some v → wf false n h v = true) →
  wf false n h bv = true → h ⊆ h0 →
  ∃ r h', merge_base_entry merge clone om k bv h0 = Some (r, h') ∧ h0 ⊆ h'.
Proof.
  intros Hmerge Hclone Hom Hbv Hsub. unfold merge_base_entry.
  destruct (om !! k) as [ov|] eqn:Hk.
  - destruct (as_map bv) as [x|] eqn:Hx, (as_map ov) as [y|] eqn:Hy.
    + apply as_map_Some in Hx as ->. apply as_map_Some in Hy as ->.
      destruct (Hmerge h0 x y) as (r & h' & Hrun & Hsub' & _);
        [eapply wf_weaken; eauto..|].
      eexists _, h'. by rewrite (bind_Some _ _ _ _ _ Hrun).
    + destruct (Hclone h0 ov) as (r & h' & Hrun & Hsub' & _);
        [eapply wf_weaken; eauto|].
      eexists _, h'. by rewrite (bind_Some _ _ _ _ _ Hrun).
    + destruct (Hclone h0 ov) as (r & h' & Hrun & Hsub' & _);
        [eapply wf_weaken; eauto|].
      eexists _, h'. by rewrite (bind_Some _ _ _ _ _ Hrun).
    + destruct (Hclone h0 ov) as (r & h' & Hrun & Hsub' & _);
        [eapply wf_weaken; eauto|].
      eexists _, h'. by rewrite (bind_Some _ _ _ _ _ Hrun).
  - destruct (Hclone h0 bv) as (r & h' & Hrun & Hsub' & _);
      [eapply wf_weaken; eauto|].
    eexists _, h'. by rewrite (bind_Some _ _ _ _ _ Hrun).
Qed.

Lemma merge_overlay_entry_runs n clone (h h0 : gmap loc obj) bm k ov :
  clones_ok false n clone →
  wf false n h ov = true → h ⊆ h0 →
  ∃ r h', merge_overlay_entry clone bm k ov h0 = Some (r, h') ∧ h0 ⊆ h'.
Proof.
  intros Hclone Hov Hsub. unfold merge_overlay_entry.
  destruct (bm !! k) as [bv|]; [by exists None, h0|].
  destruct (Hclone h0 ov) as (r & h' & Hrun & Hsub' & _);
    [eapply wf_weaken; eauto|].
  eexists _, h'. by rewrite (bind_Some _ _ _ _ _ Hrun).
Qed.

(** The first loop leaves, under each key of [base], what the merge policy
    prescribes. *)
Lemma merge_base_entry_inv merge clone (h ha hb h' : gmap loc obj) om k bv r :
  merge_base_entry merge clone om k bv ha = Some (r, hb) →
  h ⊆ ha → hb ⊆ h' →
  ∃ x, r = Some x ∧
       merge_entry_spec merge clone h (Some bv) (om !! k) h' (Some x).
Proof.
  unfold merge_base_entry, merge_entry_spec. intros Hrun Ha Hb.
  destruct (om !! k) as [ov|].
  - destruct (as_map bv) as [x|], (as_map ov) as [y|];
      apply bind_inv in Hrun as (z & h1 & Hz & [= <- <-]);
      (eexists; split; [done|]); by exists z, ha, h1.
  - apply bind_inv in Hrun as (z & h1 & Hz & [= <- <-]).
    eexists; split; [done|]. by exists z, ha, h1.
Qed.

Lemma merge_maps_ok n merge clone (h : gmap loc obj) b o bm om :
  merges_ok n merge → clones_ok false n clone →
  h !! b = Some (OMap bm) → h !! o = Some (OMap om) →
  (∀ k v, bm !! k = Some v → wf false n h v = true) →
  (∀ k v, om !! k = Some v → wf false n h v = true) →
  ∃ r rm h',
    merge_maps merge clone b o h = Some (Some r, h') ∧
    h ⊆ h' ∧ (r ∉ dom h) ∧ h' !! r = Some (OMap rm) ∧
    ∀ k, merge_entry_spec merge clone h (bm !! k) (om !! k) h' (rm !! k).
Proof.
  intros Hmerge Hclone Hb Ho Hbm Hom.
  destruct (range_entries_ok (merge_base_entry merge clone om) (map_to_list bm)
              (NoDup_fst_map_to_list bm) h ∅)
    as (res1 & h1 & Hrun1 & Hsub1 & Hout1 & Hin1).
  { intros k v h0 Hkv%elem_of_map_to_list Hh0.
    eapply merge_base_entry_runs; eauto. }
  destruct (range_entries_ok (merge_overlay_entry clone bm) (map_to_list om)
              (NoDup_fst_map_to_list om) h1 res1)
    as (res & h2 & Hrun2 & Hsub2 & Hout2 & Hin2).
  { intros k v h0 Hkv%elem_of_map_to_list Hh0.
    eapply merge_overlay_entry_runs; eauto. by etrans. }
  set (r := fresh (dom h2)). set (h' := <[r := OMap res]> h2).
  assert (h2 ⊆ h') as Hsub3 by apply alloc_extends.
  exists r, res, h'. split; [|split; [|split; [|split]]].
  - unfold merge_maps.
    rewrite (bind_Some _ _ _ _ _ (load_map_unfold _ _ _ Hb)).
    rewrite (bind_Some _ _ _ _ _ (load_map_unfold _ _ _ Ho)).
    rewrite (bind_Some _ _ _ _ _ Hrun1). rewrite (bind_Some _ _ _ _ _ Hrun2).
    by rewrite (bind_Some _ _ _ _ _ (alloc_unfold _ _)).
  - by do 2 (etrans; [done|]).
  - apply fresh_not_in_smaller. by etrans.
  - apply lookup_insert_eq.
  - intros k.
    (* what the first loop left under [k] *)
    assert (match bm !! k with
            | Some bv => ∃ x, res1 !! k = Some x ∧
                merge_entry_spec merge clone h (Some bv) (om !! k) h' (Some x)
            | None => res1 !! k = None
            end) as H1.
    { destruct (bm !! k) as [bv|] eqn:Hk.
      - destruct (Hin1 k bv) as (ha & hb & r0 & Ha & Hab & Hb1 & Hbody & Hres);
          [by apply elem_of_map_to_list|].
        eapply merge_base_entry_inv in Hbody as (x & -> & Hspec);
          [|done|by do 2 (etrans; [done|])].
        eauto.
      - rewrite Hout1 by (by apply not_elem_of_map_keys). apply lookup_empty. }
    destruct (om !! k) as [ov|] eqn:Hk2.
    + destruct (Hin2 k ov) as (ha & hb & r0 & Ha & Hab & Hb2 & Hbody & Hres);
        [by apply elem_of_map_to_list|].
      unfold merge_overlay_entry in Hbody. rewrite Hres.
      destruct (bm !! k) as [bv|] eqn:Hk1.
      * injection Hbody as <- <-. by destruct H1 as (x & -> & Hspec).
      * apply bind_inv in Hbody as (z & hz & Hz & [= <- <-]).
        exists z, ha, hz. split; [by etrans|]. split; [by etrans|]. done.
    + rewrite Hout2 by (by apply not_elem_of_map_keys).
      destruct (bm !! k) as [bv|]; [by destruct H1 as (x & -> & Hspec)|done].
Qed.

Lemma DeepCloneMap_ok n (h : gmap loc obj) l :
  wf false (S n) h (VMap (Some l)) = true →
  ∃ r h', DeepCloneMap n (Some l) h = Some (Some r, h') ∧ h ⊆ h' ∧ (r ∉ dom h).
Proof.
  intros (m & Hl & Hall)%wf_map_inv.
  destruct (DeepCloneMap_with_ok false n _ h l m (DeepCloneValue_ok false n) Hl Hall)
    as (r & rm & h' & Hrun & Hsub & Hfresh & _).
  by exists r, h'.
Qed.

Theorem DeepMerge_ok n : merges_ok n (DeepMerge n).
Proof.
  induction n as [|n IH]; intros h base overlay Hb Ho; [done|].
  destruct base as [b|], overlay as [o|]; cbn [DeepMerge].
  - pose proof Hb as (bm & Hbl & Hbm)%wf_map_inv.
    pose proof Ho as (om & Hol & Hom)%wf_map_inv.
    destruct (merge_maps_ok n _ _ h b o bm om IH (DeepCloneValue_ok false n)
                Hbl Hol Hbm Hom) as (r & rm & h' & Hrun & Hsub & Hfresh & _).
    by exists r, h'.
  - by apply DeepCloneMap_ok.
  - by apply DeepCloneMap_ok.
  - exists (fresh (dom h)), (<[fresh (dom h) := OMap ∅]> h).
    split; [done|]. split; [apply alloc_extends | apply is_fresh].
Qed.

(** ** Fuel *)

Lemma range_entries_mono body body' (kvs : list (string * val)) :
  (∀ k v (h : gmap loc obj) r, body k v h = Some r → body' k v h = Some r) →
  ∀ acc h r, range_entries body kvs acc h = Some r →
             range_entries body' kvs acc h = Some r.
Proof.
  intros Hbody. induction kvs as [|[k v] kvs IH]; intros acc h r; [done|].
  simpl. intros (x & h1 & Hx & Hrest)%bind_inv.
  rewrite (bind_Some _ _ _ _ _ (Hbody _ _ _ _ Hx)). by apply IH.
Qed.

Lemma clone_elems_mono clone clone' (es : list val) :
  (∀ v (h : gmap loc obj) r, clone v h = Some r → clone' v h = Some r) →
  ∀ h r, clone_elems clone es h = Some r → clone_elems clone' es h = Some r.
Proof.
  intros Hclone. induction es as [|e es IH]; intros h r; [done|].
  simpl. intros (x & h1 & Hx & (xs & h2 & Hxs & Hret)%bind_inv)%bind_inv.
  rewrite (bind_Some _ _ _ _ _ (Hclone _ _ _ Hx)).
  by rewrite (bind_Some _ _ _ _ _ (IH _ _ Hxs)).
Qed.

Lemma DeepCloneMap_with_mono clone clone' m :
  (∀ v (h : gmap loc obj) r, clone v h = Some r → clone' v h = Some r) →
  ∀ h r, DeepCloneMap_with clone m h = Some r →
         DeepCloneMap_with clone' m h = Some r.
Proof.
  intros Hclone h r. destruct m as [l|]; [|done]. unfold DeepCloneMap_with.
  intros (es & h1 & Hes & (res & h2 & Hres & Hrest)%bind_inv)%bind_inv.
  rewrite (bind_Some _ _ _ _ _ Hes).
  erewrite bind_Some; [done|].
  eapply range_entries_mono; [|done].
  intros k v h0 r0. unfold clone_entry.
  intros (x & hx & Hx & Hret)%bind_inv.
  by rewrite (bind_Some _ _ _ _ _ (Hclone _ _ _ Hx)).
Qed.

(** More fuel does not change a result. *)
Lemma DeepCloneValue_fuel n : ∀ v (h : gmap loc obj) r,
  DeepCloneValue n v h = Some r → DeepCloneValue (S n) v h = Some r.
Proof.
  induction n as [|n IH]; intros v h r Hrun; [done|].
  destruct v as [|sc|m|s|k s|ty s|ty ts]; try done.
  - cbn [DeepCloneValue] in Hrun |- *.
    apply bind_inv in Hrun as (x & h1 & Hx & Hret).
    by rewrite (bind_Some _ _ _ _ _ (DeepCloneMap_with_mono _ _ _ IH _ _ Hx)).
  - cbn [DeepCloneValue] in Hrun |- *.
    apply bind_inv in Hrun as (es & h1 & Hes & (es' & h2 & Hes' & Hret)%bind_inv).
    rewrite (bind_Some _ _ _ _ _ Hes).
    by rewrite (bind_Some _ _ _ _ _ (clone_elems_mono _ _ _ IH _ _ Hes')).
Qed.

Lemma DeepCloneMap_fuel n m (h : gmap loc obj) r :
  DeepCloneMap n m h = Some r → DeepCloneMap (S n) m h = Some r.
Proof. apply DeepCloneMap_with_mono, DeepCloneValue_fuel. Qed.

(** ** The claims on deep clone and deep merge *)

Lemma cloned_is_clone n (h h' : gmap loc obj) v r :
  wf false n h v = true →
  cloned_by (DeepCloneValue n) h v h' r → is_clone n h v h' r.
Proof.
  intros Hwf Hc. split; [done|].
  destruct Hc as (v' & ha & hb & Ha & Hb & Hrun & ->). exists v'. split; [done|].
  destruct (DeepCloneValue_ok false n ha v) as (v'' & h'' & Hrun' & Hpost).
  { by eapply wf_weaken. }
  rewrite Hrun in Hrun'. injection Hrun' as <- <-.
  by destruct (clone_post_transport false n h ha hb h' v v' Hwf Ha Hb Hpost)
    as (_ & Hsim & _).
Qed.

(** C4. For a tree of the recognized shapes, [DeepCloneValue] returns a
    clone that is structurally equal to the source ([sim]: a nil slice is
    cloned to an empty one, which has the same elements); the store is only
    extended; every container below the clone is newly allocated, so none
    backs both the clone and the source; overwriting any container below
    the clone leaves the source as it was, and overwriting any container
    below the source leaves the clone as it was. [DeepMerge] of two maps
    returns a map at a newly allocated address and leaves every container
    of the store, those of its two inputs included, as it was. *)
Theorem DeepClone_shares_nothing (n : nat) (h : gmap loc obj) :
  (∀ v, wf true n h v = true →
     ∃ v' h',
       DeepCloneValue n v h = Some (v', h') ∧
       sim n h v h' v' ∧
       h ⊆ h' ∧
       (∀ l, reachable h' v' l → l ∉ dom h) ∧
       (∀ l, reachable h' v l → l ∈ dom h) ∧
       (∀ l, ¬ (reachable h' v l ∧ reachable h' v' l)) ∧
       (∀ l o, reachable h' v' l → sim n h v (<[l := o]> h') v) ∧
       (∀ l o, reachable h' v l → sim n h' v' (<[l := o]> h') v')) ∧
  (∀ base overlay,
     wf false n h (VMap base) = true → wf false n h (VMap overlay) = true →
     ∃ r h',
       DeepMerge n base overlay h = Some (Some r, h') ∧
       (r ∉ dom h) ∧
       h ⊆ h' ∧
       sim n h (VMap base) h' (VMap base) ∧
       sim n h (VMap overlay) h' (VMap overlay)).
Proof.
  split.
  - intros v Hwf.
    destruct (DeepCloneValue_ok true n h v Hwf)
      as (v' & h' & Hrun & Hsub & Hsim & Hwf' & Hfresh).
    specialize (Hfresh eq_refl).
    assert (Hsrc : ∀ l, reachable h' v l → l ∈ dom h).
    { intros l Hl. eapply reachable_allocated; [|done].
      by eapply reachable_shrink. }
    exists v', h'. repeat split; try done.
    + intros l [Hl Hl']. by eapply Hfresh, Hsrc.
    + intros l o Hl. eapply sim_weaken; [by eapply sim_refl | done |].
      apply insert_subseteq_r; [|done]. by apply not_elem_of_dom, Hfresh.
    + intros l o Hl. apply sim_frame; [done|].
      intros l' Hl'. apply lookup_insert_ne. intros ->.
      by eapply Hfresh, Hsrc.
  - intros base overlay Hb Ho.
    destruct (DeepMerge_ok n h base overlay Hb Ho) as (r & h' & Hrun & Hsub & Hfresh).
    exists r, h'. repeat split; try done.
    + eapply sim_weaken; [by eapply sim_refl | done..].
    + eapply sim_weaken; [by eapply sim_refl | done..].
Qed.

(** C5. For non-nil maps [base] and [overlay], [DeepMerge] returns a new
    map whose keys are the union of the keys of the two. Under a key of
    both whose two values are maps, it holds the recursive [DeepMerge] of
    these; under a key of both otherwise, a deep clone of the overlay's
    value, whatever the base's; under a key of one input only, a deep clone
    of that input's value. Hence a slice of the overlay always yields a
    slice with as many elements as the overlay's (for a typed slice, the
    same elements): it replaces what the base held and is never appended
    to it. *)
Theorem DeepMerge_union (n : nat) (h : gmap loc obj) (b o : loc)
    (bm om : gmap string val) :
  h !! b = Some (OMap bm) →
  h !! o = Some (OMap om) →
  wf false (S n) h (VMap (Some b)) = true →
  wf false (S n) h (VMap (Some o)) = true →
  ∃ r rm h',
    DeepMerge (S n) (Some b) (Some o) h = Some (Some r, h') ∧
    (r ∉ dom h) ∧
    h' !! r = Some (OMap rm) ∧
    dom rm = dom bm ∪ dom om ∧
    (∀ k,
       match bm !! k, om !! k with
       | Some bv, Some ov =>
           match as_map bv, as_map ov with
           | Some x, Some y => merged_by (DeepMerge n) h x y h' (rm !! k)
           | _, _ => is_clone n h ov h' (rm !! k)
           end
       | Some bv, None => is_clone n h bv h' (rm !! k)
       | None, Some ov => is_clone n h ov h' (rm !! k)
       | None, None => rm !! k = None
       end) ∧
    (∀ k s es, om !! k = Some (VAnySlice s) → elems_of h s = Some es →
       ∃ s' es', rm !! k = Some (VAnySlice s') ∧
                 elems_of h' s' = Some es' ∧ length es' = length es) ∧
    (∀ k ty s es, om !! k = Some (VTypedSlice ty s) → elems_of h s = Some es →
       ∃ s', rm !! k = Some (VTypedSlice ty s') ∧ elems_of h' s' = Some es).
Proof.
  intros Hb Ho Hwfb Hwfo.
  apply wf_map_inv in Hwfb as (bm' & Hb' & Hbm). rewrite Hb in Hb'.
  injection Hb' as <-.
  apply wf_map_inv in Hwfo as (om' & Ho' & Hom). rewrite Ho in Ho'.
  injection Ho' as <-.
  destruct (merge_maps_ok n _ _ h b o bm om (DeepMerge_ok n)
              (DeepCloneValue_ok false n) Hb Ho Hbm Hom)
    as (r & rm & h' & Hrun & Hsub & Hfresh & Hr & Hspec).
  assert (Hkeys : ∀ k,
    match bm !! k, om !! k with
    | Some bv, Some ov =>
        match as_map bv, as_map ov with
        | Some x, Some y => merged_by (DeepMerge n) h x y h' (rm !! k)
        | _, _ => is_clone n h ov h' (rm !! k)
        end
    | Some bv, None => is_clone n h bv h' (rm !! k)
    | None, Some ov => is_clone n h ov h' (rm !! k)
    | None, None => rm !! k = None
    end).
  { intros k. specialize (Hspec k). unfold merge_entry_spec in Hspec.
    destruct (bm !! k) as [bv|] eqn:Hk1, (om !! k) as [ov|] eqn:Hk2; try done.
    - destruct (as_map bv), (as_map ov); try done;
        apply cloned_is_clone; eauto.
    - apply cloned_is_clone; eauto.
    - apply cloned_is_clone; eauto. }
  assert (Hov : ∀ k ov, om !! k = Some ov → as_map ov = None →
                        is_clone n h ov h' (rm !! k)).
  { intros k ov Hk Hnomap. specialize (Hkeys k). rewrite Hk in Hkeys.
    destruct (bm !! k) as [bv|]; [|done].
    rewrite Hnomap in Hkeys. by destruct (as_map bv). }
  exists r, rm, h'. split; [done|]. split; [done|]. split; [done|].
  split; [|split; [done|split]].
  - apply set_eq. intros k. rewrite elem_of_union, !elem_of_dom.
    specialize (Hkeys k).
    destruct (bm !! k) as [bv|] eqn:Hk1, (om !! k) as [ov|] eqn:Hk2.
    + assert (is_Some (rm !! k)) as Hsome.
      { destruct (as_map bv), (as_map ov);
          first [ by destruct Hkeys as (_ & v' & -> & _)
                | by destruct Hkeys as (z & _ & _ & _ & _ & _ & ->) ]. }
      split; [intros _; left; eauto | done].
    + destruct Hkeys as (_ & v' & -> & _). split; [intros _; left|]; eauto.
    + destruct Hkeys as (_ & v' & -> & _). split; [intros _; right|]; eauto.
    + rewrite Hkeys. split; [by intros [? ?] | by intros [[? ?]|[? ?]]].
  - intros k s es Hk Hes.
    destruct (Hov k _ Hk eq_refl) as (_ & v' & -> & Hsim).
    destruct n as [|n]; [done|]. destruct v' as [| | |s'| | |]; try done.
    destruct Hsim as (es1 & es2 & He1 & He2 & Hall).
    rewrite Hes in He1. injection He1 as <-.
    exists s', es2. split; [done|]. split; [done|].
    symmetry. by eapply Forall2_length.
  - intros k ty s es Hk Hes.
    destruct (Hov k _ Hk eq_refl) as (_ & v' & -> & Hsim).
    destruct n as [|n]; [done|]. destruct v' as [| | | |ty' s'| |]; try done.
    destruct Hsim as (<- & es1 & He1 & He2).
    rewrite Hes in He1. injection He1 as <-. by exists s'.
Qed.

(** C6. With both inputs nil, [DeepMerge] returns a new empty map. With
    exactly one input nil, it is [DeepCloneMap] of the other: its result is
    that call's result, and on a well-formed map both return, with the
    same map and store. *)
Theorem DeepMerge_identity (n : nat) (h : gmap loc obj) :
  DeepMerge (S n) None None h
    = Some (Some (fresh (dom h)), <[fresh (dom h) := OMap ∅]> h) ∧
  (∀ b, DeepMerge (S n) (Some b) None h = DeepCloneMap n (Some b) h) ∧
  (∀ o, DeepMerge (S n) None (Some o) h = DeepCloneMap n (Some o) h) ∧
  (∀ m, wf false (S n) h (VMap (Some m)) = true →
     ∃ r h',
       DeepCloneMap (S n) (Some m) h = Some (Some r, h') ∧
       DeepMerge (S n) (Some m) None h = Some (Some r, h') ∧
       DeepMerge (S n) None (Some m) h = Some (Some r, h') ∧
       sim (S n) h (VMap (Some m)) h' (VMap (Some r))).
Proof.
  split; [done|]. split; [done|]. split; [done|].
  intros m Hwf. pose proof Hwf as (mm & Hm & Hall)%wf_map_inv.
  destruct (DeepCloneMap_with_ok false n _ h m mm (DeepCloneValue_ok false n) Hm Hall)
    as (r & rm & h' & Hrun & Hsub & Hfresh & Hr & Hpost).
  exists r, h'. split; [by apply DeepCloneMap_fuel|]. split; [done|].
  split; [done|].
  by destruct (clone_map_post false n h h' m r mm rm Hm Hr Hsub Hfresh Hpost)
    as (_ & Hsim & _).
Qed.

(** C7. A slice of any type other than the six listed is copied one
    level: the clone is a new array holding the very element values of the
    source, whatever the fuel beyond one, so a container an element refers
    to backs the clone as well. A scalar or an opaque composite is returned
    as it is, and the store is left as it is. *)
Theorem DeepCloneValue_fallback (n : nat) (h : gmap loc obj) :
  (∀ ty s es, elems_of h s = Some es →
     DeepCloneValue (S n) (VOtherSlice ty s) h
       = Some (VOtherSlice ty (Some (fresh (dom h))),
               <[fresh (dom h) := OArray es]> h) ∧
     (fresh (dom h) ∉ dom h) ∧
     ∀ e l, e ∈ es → l ∈ refs e →
       reachable (<[fresh (dom h) := OArray es]> h)
         (VOtherSlice ty (Some (fresh (dom h)))) l) ∧
  (∀ sc, DeepCloneValue (S n) (VScalar sc) h = Some (VScalar sc, h)) ∧
  (∀ ty targets,
     DeepCloneValue (S n) (VOpaque ty targets) h = Some (VOpaque ty targets, h)).
Proof.
  split; [|done]. intros ty s es Hes. split; [|split].
  - cbn [DeepCloneValue].
    by rewrite (bind_Some _ _ _ _ _ (copy_slice_unfold _ _ _ Hes)).
  - apply is_fresh.
  - intros e l He Hl. eapply reachable_step.
    + simpl. by left.
    + apply lookup_insert_eq.
    + done.
    + by apply reachable_here.
Qed.

(** ** Instances and examples for deep clone and deep merge *)

(** [merge({"a": 1}, {"a": [1, 2]}) = {"a": [1, 2]}]: the result map at 5
    holds a new slice (at 4) with the overlay's two elements. *)
Example DeepMerge_scalar_vs_slice :
  DeepMerge 3 (Some 1%positive) (Some 2%positive) store_a =
    Some (Some 5%positive,
          <[5%positive := OMap {["a" := VAnySlice (Some 4%positive)]}]>
            (<[4%positive := OArray [int 1; int 2]]> store_a)).
Proof. by vm_compute. Qed.

(** [merge({"tags": ["dev", "test"]}, {"tags": ["prod"]}) = {"tags": ["prod"]}]. *)
Example DeepMerge_replaces_slices :
  DeepMerge 2 (Some 1%positive) (Some 2%positive) store_tags =
    Some (Some 6%positive,
          <[6%positive := OMap {["tags" := VTypedSlice EString (Some 5%positive)]}]>
            (<[5%positive := OArray [str "prod"]]> store_tags)).
Proof. by vm_compute. Qed.

(** [merge({"x": {"p": 1}}, {"x": "str"}) = {"x": "str"}]. *)
Example DeepMerge_map_vs_scalar :
  DeepMerge 2 (Some 1%positive) (Some 2%positive) store_x =
    Some (Some 4%positive, <[4%positive := OMap {["x" := str "str"]}]> store_x).
Proof. by vm_compute. Qed.

(** The nested maps under [config] are merged key by key. *)
Example DeepMerge_nested_maps :
  DeepMerge 3 (Some 1%positive) (Some 2%positive) store_config =
    Some (Some 6%positive,
          <[6%positive := OMap {["config" := VMap (Some 5%positive)]}]>
            (<[5%positive := OMap {["host" := str "localhost"; "port" := int 9090;
                                   "timeout" := int 30; "retries" := int 3]}]>
               store_config)).
Proof. by vm_compute. Qed.

(** A nil [[]any] is cloned to an empty, non-nil one. *)
Example DeepCloneValue_nil_slice :
  DeepCloneValue 1 (VAnySlice None) ∅ =
    Some (VAnySlice (Some 1%positive), {[1%positive := OArray []]}).
Proof. by vm_compute. Qed.

Lemma DeepClone_shares_nothing_witness :
  (∃ v' h',
     DeepCloneValue 3 (VMap (Some 1%positive)) store_config = Some (v', h') ∧
     sim 3 store_config (VMap (Some 1%positive)) h' v' ∧
     ∀ l, reachable h' v' l → l ∉ dom store_config) ∧
  (∃ r h',
     DeepMerge 3 (Some 1%positive) (Some 2%positive) store_a = Some (Some r, h') ∧
     (r ∉ dom store_a) ∧ store_a ⊆ h').
Proof.
  destruct (DeepClone_shares_nothing 3 store_config) as [Hclone _].
  destruct (DeepClone_shares_nothing 3 store_a) as [_ Hmerge].
  split.
  - destruct (Hclone (VMap (Some 1%positive)))
      as (v' & h' & Hrun & Hsim & _ & Hfresh & _); [by vm_compute|].
    eauto.
  - destruct (Hmerge (Some 1%positive) (Some 2%positive))
      as (r & h' & Hrun & Hfresh & Hsub & _); [by vm_compute..|].
    eauto.
Defined.

Lemma DeepMerge_union_witness :
  ∃ r rm h',
    DeepMerge 3 (Some 1%positive) (Some 2%positive) store_a = Some (Some r, h') ∧
    h' !! r = Some (OMap rm) ∧
    dom rm = dom ({["a" := int 1]} : gmap string val)
             ∪ dom ({["a" := VAnySlice (Some 3%positive)]} : gmap string val).
Proof.
  destruct (DeepMerge_union 2 store_a 1%positive 2%positive
              {["a" := int 1]} {["a" := VAnySlice (Some 3%positive)]})
    as (r & rm & h' & Hrun & _ & Hr & Hdom & _);
    [reflexivity | reflexivity | by vm_compute | by vm_compute |].
  by exists r, rm, h'.
Defined.

Lemma DeepMerge_identity_witness :
  ∃ r h',
    DeepCloneMap 3 (Some 1%positive) store_x = Some (Some r, h') ∧
    DeepMerge 3 (Some 1%positive) None store_x = Some (Some r, h') ∧
    DeepMerge 3 None (Some 1%positive) store_x = Some (Some r, h').
Proof.
  destruct (DeepMerge_identity 2 store_x) as (_ & _ & _ & Hsame).
  destruct (Hsame 1%positive) as (r & h' & H1 & H2 & H3 & _); [by vm_compute|].
  eauto.
Defined.

Lemma DeepCloneValue_fallback_witness :
  DeepCloneValue 1 (VOtherSlice "[]map[string]interface {}" (Some 2%positive)) store_rows
    = Some (VOtherSlice "[]map[string]interface {}" (Some 3%positive),
            <[3%positive := OArray [VMap (Some 1%positive)]]> store_rows) ∧
  reachable (<[3%positive := OArray [VMap (Some 1%positive)]]> store_rows)
    (VOtherSlice "[]map[string]interface {}" (Some 3%positive)) 1%positive.
Proof.
  destruct (DeepCloneValue_fallback 0 store_rows) as [Hslice _].
  destruct (Hslice "[]map[string]interface {}" (Some 2%positive)
              [VMap (Some 1%positive)]) as (Hrun & _ & Hshare); [reflexivity|].
  split; [exact Hrun|].
  apply (Hshare (VMap (Some 1%positive)) 1%positive); [by left | by left].
Defined.

(** * Further properties of the cache *)

Section cache_extras.

Variable ForHash : Key → string.
Context {T : Type} `{!Zero T}.

(** [Sync] always runs, and changes the entries only. *)
Lemma Sync_runs (c : defaultCache T) (now : Time) :
  ∃ c', Sync now c = Some (tt, c') ∧ ttl c' = ttl c ∧ keyFunc c' = keyFunc c.
Proof. eexists. by split; [reflexivity|]. Qed.

Lemma Sync_subseteq (c c' : defaultCache T) (now : Time) :
  Sync now c = Some (tt, c') → entries c' ⊆ entries c.
Proof.
  intros Hs. apply map_subseteq_spec. intros k e.
  rewrite (Sync_lookup c c' now k Hs).
  destruct (entries c !! k); [|done]. by case_bool_decide.
Qed.

Lemma Sync_drops (c c' : defaultCache T) (now : Time) k e :
  Sync now c = Some (tt, c') →
  entries c !! k = Some e → expiration e < now →
  entries c' !! k = None ∧ (size (entries c') < size (entries c))%nat.
Proof.
  intros Hs Hk He.
  assert (entries c' !! k = None) as Hnone
    by (by rewrite (Sync_lookup c c' now k Hs), Hk, bool_decide_eq_true_2).
  split; [done|]. apply map_subset_size. split; [by eapply Sync_subseteq|].
  intros Hsub. eapply lookup_weaken in Hsub; [|done]. congruence.
Qed.

(** X1. [Set_] under one key leaves every key with a different normalized
    string as it was: a [Get] of such a key returns, at any time, what it
    returned before the [Set_]. *)
Theorem Set_frames_other_keys (c : defaultCache T) f (now : Time) (key key' : Key) (v : T) :
  keyFunc c = Some f →
  f key' ≠ f key →
  ∃ c', Set_ now key v c = Some (tt, c') ∧
        entries c' !! f key' = entries c !! f key' ∧
        ∀ now', fst <$> Get now' key' c' = fst <$> Get now' key' c.
Proof.
  intros Hf Hne. eexists. split; [by apply Set_unfold|]. simpl.
  assert (Hl : <[f key := mkEntry v (now + ttl c)]> (entries c) !! f key'
               = entries c !! f key') by (by apply lookup_insert_ne).
  split; [done|]. intros now'.
  erewrite (Get_unfold _ f) by done. erewrite (Get_unfold c f) by done.
  simpl. by rewrite Hl.
Qed.

(** X2. Two keys with the same normalized string are one entry: after
    [Set_] under one of them, a [Get] under the other, up to the expiration,
    returns the value just stored, whatever was stored under either
    before. *)
Theorem Set_Get_aliased_key (c : defaultCache T) f (now now' : Time) (key key' : Key) (v : T) :
  keyFunc c = Some f →
  f key' = f key →
  now' ≤ now + ttl c →
  ∃ c', Set_ now key v c = Some (tt, c') ∧
        Get now' key' c' = Some ((v, true), c').
Proof.
  intros Hf Heq Hnow. eexists. split; [by apply Set_unfold|].
  erewrite Get_unfold by done. simpl. rewrite Heq, lookup_insert_eq. simpl.
  by rewrite bool_decide_eq_false_2 by lia.
Qed.

(** X3. [Sync] is not observable through [Get]: at the time of the [Sync]
    or later, a [Get] returns the same value and flag after the [Sync] as
    it would have without it. *)
Theorem Sync_invisible_to_Get (c c' : defaultCache T) (now now' : Time) (key : Key) :
  now ≤ now' →
  Sync now c = Some (tt, c') →
  fst <$> Get now' key c' = fst <$> Get now' key c.
Proof.
  intros Hnow Hs.
  assert (keyFunc c' = keyFunc c) as Hkf
    by (unfold Sync, modify in Hs; by injection Hs as <-).
  destruct (keyFunc c) as [f|] eqn:Hf.
  - rewrite (Get_unfold c' f) by done. rewrite (Get_unfold c f) by done. simpl.
    rewrite (Sync_lookup c c' now _ Hs).
    destruct (entries c !! f key) as [e|]; [|done].
    case_bool_decide as He; [|done].
    by rewrite bool_decide_eq_true_2 by lia.
  - destruct c as [es d kf], c' as [es' d' kf']. simpl in *. by subst.
Qed.

(** X4. A [Sync] makes an earlier [Sync] redundant: [Sync] at [now] and
    then at [now' ≥ now] leaves the cache that [Sync] at [now'] alone
    leaves; in particular [Sync] twice at the same time is [Sync] once. *)
Theorem Sync_absorbs_earlier_Sync (c c1 c2 : defaultCache T) (now now' : Time) :
  now ≤ now' →
  Sync now c = Some (tt, c1) →
  Sync now' c1 = Some (tt, c2) →
  Sync now' c = Some (tt, c2).
Proof.
  intros Hnow H1 H2.
  assert (∃ c3, Sync now' c = Some (tt, c3)) as [c3 H3] by (eexists; reflexivity).
  rewrite H3. do 2 f_equal.
  assert (ttl c1 = ttl c ∧ keyFunc c1 = keyFunc c) as [Ht1 Hk1]
    by (unfold Sync, modify in H1; by injection H1 as <-).
  assert (ttl c2 = ttl c1 ∧ keyFunc c2 = keyFunc c1) as [Ht2 Hk2]
    by (unfold Sync, modify in H2; by injection H2 as <-).
  assert (ttl c3 = ttl c ∧ keyFunc c3 = keyFunc c) as [Ht3 Hk3]
    by (unfold Sync, modify in H3; by injection H3 as <-).
  assert (entries c3 = entries c2) as He.
  { apply map_eq. intros k.
    rewrite (Sync_lookup c c3 now' k H3), (Sync_lookup c1 c2 now' k H2),
      (Sync_lookup c c1 now k H1).
    destruct (entries c !! k) as [e|]; [|done].
    repeat case_bool_decide; try done; lia. }
  destruct c2, c3. simpl in *. congruence.
Qed.

(** X5. An entry written by [Set_] is gone for good once the clock is past
    its expiration and [Sync] has run: the key has no entry and a [Get] at
    any time misses. *)
Theorem Set_then_Sync_after_expiry (c : defaultCache T) (now now' : Time) (key : Key) (v : T) :
  cache_ok c →
  now + ttl c < now' →
  ∃ f c1 c2,
    keyFunc c = Some f ∧
    Set_ now key v c = Some (tt, c1) ∧
    Sync now' c1 = Some (tt, c2) ∧
    entries c2 !! f key = None ∧
    (size (entries c2) < size (entries c1))%nat ∧
    ∀ now'', Get now'' key c2 = Some ((zero, false), c2).
Proof.
  intros [Httl [f Hf]] Hnow.
  assert (∃ c1, Set_ now key v c = Some (tt, c1)) as [c1 H1]
    by (eexists; by apply Set_unfold).
  pose proof H1 as H1'. rewrite (Set_unfold c f) in H1' by done.
  injection H1' as H1'.
  assert (entries c1 !! f key = Some (mkEntry v (now + ttl c))) as Hk
    by (rewrite <- H1'; simpl; apply lookup_insert_eq).
  assert (keyFunc c1 = Some f) as Hf1 by (by rewrite <- H1').
  destruct (Sync_runs c1 now') as (c2 & H2 & _ & Hkf).
  destruct (Sync_drops c1 c2 now' _ _ H2 Hk) as [Hnone Hsize]; [simpl; lia|].
  exists f, c1, c2. split; [done|]. split; [done|]. split; [done|].
  split; [done|]. split; [done|].
  intros now''. rewrite (Get_unfold c2 f) by congruence. by rewrite Hnone.
Qed.

End cache_extras.

Section cache_callers.

Variable ForHash : Key → string.
Context {T : Type} `{!Zero T}.

Lemma Get_runs (c : defaultCache T) f (now : Time) (key : Key) :
  keyFunc c = Some f → ∃ r, Get now key c = Some (r, c).
Proof. intros Hf. eexists. by apply Get_unfold. Qed.

Lemma do_calls_cons (cl : call (T:=T)) cls (c c1 c' : defaultCache T) r rs :
  do_call cl c = Some (r, c1) → do_calls cls c1 = Some (rs, c') →
  do_calls (cl :: cls) c = Some (r :: rs, c').
Proof.
  intros Hcall Hrun. cbn [do_calls].
  rewrite (bind_Some _ _ _ _ _ Hcall). by rewrite (bind_Some _ _ _ _ _ Hrun).
Qed.

(** Calls on a cache with a key function all return; the cache keeps its
    TTL and key function, and holds only entries it held before or that a
    [CallSet] of the list wrote. *)
Lemma do_calls_runs (cls : list (call (T:=T))) : ∀ (c : defaultCache T) f,
  keyFunc c = Some f →
  ∃ rs c',
    do_calls cls c = Some (rs, c') ∧ length rs = length cls ∧
    ttl c' = ttl c ∧ keyFunc c' = Some f ∧
    ∀ k e, entries c' !! k = Some e →
      entries c !! k = Some e ∨
      ∃ now key, CallSet now key (value e) ∈ cls ∧
                 expiration e = now + ttl c ∧ k = f key.
Proof.
  induction cls as [|cl cls IH]; intros c f Hf.
  - exists [], c. repeat split; try done. by left.
  - destruct cl as [now key | now key v | now].
    + destruct (Get_runs c f now key Hf) as [r Hr].
      destruct (IH c f Hf) as (rs & c' & Hrun & Hlen & Ht & Hk & Hin).
      exists (Some r :: rs), c'. split; [|split; [|split; [|split]]]; try done.
      * eapply do_calls_cons; [|done]. unfold do_call.
        by rewrite (bind_Some _ _ _ _ _ Hr).
      * simpl. by rewrite Hlen.
      * intros k e He. destruct (Hin k e He) as [?|(n0 & k0 & ? & ? & ?)];
          [by left|]. right. exists n0, k0. split; [by right|done].
    + pose proof (Set_unfold c f now key v Hf) as Hs.
      set (c1 := mkCache _ (ttl c) (keyFunc c)) in Hs.
      destruct (IH c1 f Hf) as (rs & c' & Hrun & Hlen & Ht & Hk & Hin).
      exists (None :: rs), c'. split; [|split; [|split; [|split]]]; try done.
      * eapply do_calls_cons; [|done]. unfold do_call.
        by rewrite (bind_Some _ _ _ _ _ Hs).
      * simpl. by rewrite Hlen.
      * intros k e He. destruct (Hin k e He) as [He1|(n0 & k0 & ? & ? & ?)].
        -- simpl in He1. destruct (decide (k = f key)) as [->|Hne].
           ++ rewrite lookup_insert_eq in He1. injection He1 as <-.
              right. exists now, key. split; [by left|done].
           ++ rewrite lookup_insert_ne in He1 by done. by left.
        -- right. exists n0, k0. split; [by right|done].
    + destruct (Sync_runs c now) as (c1 & Hs & Ht1 & Hk1).
      destruct (IH c1 f) as (rs & c' & Hrun & Hlen & Ht & Hk & Hin);
        [congruence|].
      exists (None :: rs), c'. split; [|split; [|split; [|split]]]; try done.
      * eapply do_calls_cons; [|done]. unfold do_call.
        by rewrite (bind_Some _ _ _ _ _ Hs).
      * simpl. by rewrite Hlen.
      * congruence.
      * intros k e He. destruct (Hin k e He) as [He1|(n0 & k0 & ? & ? & ?)].
        -- left. eapply lookup_weaken; [done|]. by eapply Sync_subseteq.
        -- right. exists n0, k0. split; [by right|]. split; [congruence|done].
Qed.

(** X6. On a cache built by [New], no sequence of [Get], [Set] and [Sync]
    calls panics: each call returns, and the cache keeps the TTL and key
    function it was built with. Every entry the cache then holds was
    written by a [Set] call of the sequence: it carries that call's value
    under that call's normalized key, and expires at that call's time plus
    the TTL. *)
Theorem calls_never_panic (opts : list Option) (cls : list (call (T:=T))) :
  ∃ rs c' f,
    do_calls cls (New ForHash opts) = Some (rs, c') ∧
    length rs = length cls ∧
    ttl c' = ttl (New (T:=T) ForHash opts) ∧
    keyFunc c' = Some f ∧ keyFunc (New (T:=T) ForHash opts) = Some f ∧
    ∀ k e, entries c' !! k = Some e →
      ∃ now key, CallSet now key (value e) ∈ cls ∧
                 expiration e = now + ttl c' ∧ k = f key.
Proof.
  destruct (New_ok ForHash (T:=T) opts) as [_ [f Hf]].
  destruct (do_calls_runs cls _ f Hf) as (rs & c' & Hrun & Hlen & Ht & Hk & Hin).
  exists rs, c', f. repeat split; try done.
  intros k e He. destruct (Hin k e He) as [He0|(now & key & ? & ? & ?)].
  - unfold New in He0. cbn [entries] in He0. by rewrite lookup_empty in He0.
  - exists now, key. split; [done|]. split; [congruence|done].
Qed.

Lemma New_ttl (opts : list Option) :
  ttl (New (T:=T) ForHash opts) =
    if bool_decide (TTL (configured ForHash opts) ≤ 0) then defaultTTL
    else TTL (configured ForHash opts).
Proof.
  unfold New, New_options. fold (configured ForHash opts).
  destruct (configured ForHash opts) as [d kf]. cbn [TTL KeyFunc].
  case_bool_decide; by destruct kf.
Qed.

Lemma New_keyFunc (opts : list Option) :
  keyFunc (New (T:=T) ForHash opts) =
    Some (default (DefaultKeyFunc ForHash) (KeyFunc (configured ForHash opts))).
Proof.
  unfold New, New_options. fold (configured ForHash opts).
  destruct (configured ForHash opts) as [d kf]. cbn [TTL KeyFunc].
  case_bool_decide; by destruct kf.
Qed.

Lemma configured_snoc (opts : list Option) (opt : Option) :
  configured ForHash (opts ++ [opt]) = ApplyTo opt (configured ForHash opts).
Proof. unfold configured. by rewrite foldl_app. Qed.

(** X7. Options apply in order and the last one wins: a positive [WithTTL]
    or struct TTL at the end sets the TTL, a non-nil [WithKeyFunc] at the
    end sets the key function, and neither touches the other field. A
    struct option with a non-positive TTL leaves an earlier TTL in place,
    whereas a non-positive [WithTTL] overwrites it, so that the default
    comes back. *)
Theorem New_last_option_wins (opts : list Option) :
  (∀ d, 0 < d → ttl (New (T:=T) ForHash (opts ++ [WithTTL d])) = d) ∧
  (∀ d kf, 0 < d →
     ttl (New (T:=T) ForHash (opts ++ [StructOption (mkOptions d kf)])) = d) ∧
  (∀ f, keyFunc (New (T:=T) ForHash (opts ++ [WithKeyFunc (Some f)])) = Some f) ∧
  (∀ d f, keyFunc (New (T:=T) ForHash (opts ++ [StructOption (mkOptions d (Some f))]))
            = Some f) ∧
  (∀ fn, ttl (New (T:=T) ForHash (opts ++ [WithKeyFunc fn]))
           = ttl (New (T:=T) ForHash opts)) ∧
  (∀ d, keyFunc (New (T:=T) ForHash (opts ++ [WithTTL d]))
          = keyFunc (New (T:=T) ForHash opts)) ∧
  (∀ d0 d, 0 < d0 → d ≤ 0 →
     ttl (New (T:=T) ForHash (opts ++ [WithTTL d0; WithTTL d])) = defaultTTL ∧
     ttl (New (T:=T) ForHash (opts ++ [WithTTL d0; StructOption (mkOptions d None)]))
       = d0).
Proof.
  split; [|split; [|split; [|split; [|split; [|split]]]]].
  - intros d Hd. rewrite New_ttl, configured_snoc. cbn [ApplyTo WithTTL TTL].
    by rewrite bool_decide_eq_false_2 by lia.
  - intros d kf Hd. rewrite New_ttl, configured_snoc.
    cbn [ApplyTo]. unfold Options_ApplyTo. cbn [TTL KeyFunc].
    rewrite (bool_decide_eq_true_2 (d > 0)) by lia.
    destruct kf; cbn [TTL]; by rewrite bool_decide_eq_false_2 by lia.
  - intros f. by rewrite New_keyFunc, configured_snoc.
  - intros d f. rewrite New_keyFunc, configured_snoc.
    cbn [ApplyTo]. unfold Options_ApplyTo. by cbn [TTL KeyFunc].
  - intros fn. by rewrite !New_ttl, configured_snoc.
  - intros d. by rewrite !New_keyFunc, configured_snoc.
  - intros d0 d Hd0 Hd.
    assert (Hl : ∀ o, opts ++ [WithTTL d0; o] = (opts ++ [WithTTL d0]) ++ [o])
      by (intros o; by rewrite <- app_assoc).
    rewrite !Hl, !New_ttl, !configured_snoc.
    split.
    + cbn [ApplyTo WithTTL TTL]. by rewrite bool_decide_eq_true_2 by lia.
    + cbn [ApplyTo WithTTL]. unfold Options_ApplyTo. cbn [TTL KeyFunc].
      rewrite (bool_decide_eq_false_2 (d > 0)) by lia. cbn [TTL].
      by rewrite bool_decide_eq_false_2 by lia.
Qed.

End cache_callers.

(** * Further properties of the render cache *)

Section render_extras.

Context {Obj : Type} (DeepCopy : Obj → Obj).

(** X8. On a nil receiver, and on a wrapper whose cache is nil, the three
    methods do nothing and do not panic: [Get] returns [(nil, false)], [Set]
    and [Sync] return, and the state is as before, even when the slice
    passed to [Set] has no backing array in the store. *)
Theorem renderCache_nil_receiver (s : rstate (Obj:=Obj)) :
  self s = None ∨ self s = Some (mkRender None) →
  (∀ now key, renderCache_Get DeepCopy now key s = Some ((None, false), s)) ∧
  (∀ now key val, renderCache_Set DeepCopy now key val s = Some (tt, s)) ∧
  (∀ now, renderCache_Sync now s = Some (tt, s)).
Proof.
  intros Hs.
  assert (is_nil_receiver (self s) = true) as Hnil by (by destruct Hs as [-> | ->]).
  repeat split; intros;
    unfold renderCache_Get, renderCache_Set, renderCache_Sync, bind, gets;
    simpl; by rewrite Hnil.
Qed.

Lemma renderCache_Set_unfold (s : rstate (Obj:=Obj)) c f now key l objs :
  self s = Some (mkRender (Some c)) → keyFunc c = Some f →
  arrays s !! l = Some objs →
  renderCache_Set DeepCopy now key (Some l) s =
    Some (tt, mkRState (<[fresh (dom (arrays s)) := map DeepCopy objs]> (arrays s))
                (Some (mkRender (Some (mkCache
                   (<[f key := mkEntry (Some (fresh (dom (arrays s)))) (now + ttl c)]>
                      (entries c))
                   (ttl c) (keyFunc c)))))).
Proof.
  intros Hs Hf Hl. unfold renderCache_Set, bind, gets. rewrite Hs. simpl.
  unfold load, bind, gets. simpl. rewrite Hl. simpl.
  unfold on_cache. simpl. rewrite Hs. by rewrite (Set_unfold _ _ _ _ _ Hf).
Qed.

Lemma renderCache_Get_hit (s : rstate (Obj:=Obj)) c f now key e l objs :
  self s = Some (mkRender (Some c)) → keyFunc c = Some f →
  entries c !! f key = Some e → now ≤ expiration e →
  value e = Some l → arrays s !! l = Some objs →
  renderCache_Get DeepCopy now key s =
    Some ((Some (fresh (dom (arrays s))), true),
          mkRState (<[fresh (dom (arrays s)) := map DeepCopy objs]> (arrays s)) (self s)).
Proof.
  intros Hs Hf Hk He Hv Hl.
  unfold renderCache_Get, bind, gets. rewrite Hs. simpl.
  rewrite (on_cache_unfold _ _ _ Hs). rewrite (Get_unfold _ _ _ _ Hf).
  rewrite Hk. rewrite bool_decide_eq_false_2 by lia. simpl. rewrite Hv.
  unfold load, bind, gets. simpl. rewrite Hl. simpl.
  destruct s as [h r]. simpl in *. by subst r.
Qed.

(** X9. The render cache isolates what it stores. [Set] with a non-nil
    slice stores a new array of deep copies and leaves the caller's array
    alone. Whatever the caller then writes into its own array, a [Get] up
    to the expiration returns a new array holding the deep copies of the
    deep copies of the elements passed to [Set]; and whatever is then
    written into the array [Get] returned, the next [Get] returns these
    same elements again, in yet another array. *)
Theorem renderCache_round_trip (s : rstate (Obj:=Obj)) (c : defaultCache Slice)
    (now now' : Time) (key : Key) (l : loc) (objs : list Obj) :
  self s = Some (mkRender (Some c)) →
  cache_ok c →
  arrays s !! l = Some objs →
  now' ≤ now + ttl c →
  ∃ s1 l1,
    renderCache_Set DeepCopy now key (Some l) s = Some (tt, s1) ∧
    (l1 ∉ dom (arrays s)) ∧
    arrays s1 = <[l1 := map DeepCopy objs]> (arrays s) ∧
    ∀ objs',
      let s1' := mkRState (<[l := objs']> (arrays s1)) (self s1) in
      ∃ s2 l2,
        renderCache_Get DeepCopy now' key s1' = Some ((Some l2, true), s2) ∧
        (l2 ∉ dom (arrays s1')) ∧
        arrays s2 !! l2 = Some (map DeepCopy (map DeepCopy objs)) ∧
        ∀ objs'',
          let s2' := mkRState (<[l2 := objs'']> (arrays s2)) (self s2) in
          ∃ s3 l3,
            renderCache_Get DeepCopy now' key s2' = Some ((Some l3, true), s3) ∧
            l3 ≠ l2 ∧
            arrays s3 !! l3 = Some (map DeepCopy (map DeepCopy objs)).
Proof.
  intros Hs [Httl [f Hf]] Hl Hnow.
  set (l1 := fresh (dom (arrays s))).
  assert (l1 ∉ dom (arrays s)) as Hl1 by apply is_fresh.
  assert (l1 ≠ l) as Hne1.
  { intros Heq. apply Hl1. rewrite Heq. by eapply elem_of_dom_2. }
  eexists _, l1. split; [by eapply renderCache_Set_unfold|].
  split; [done|]. split; [done|]. cbn [arrays self].
  intros objs'.
  set (c1 := mkCache _ (ttl c) (keyFunc c)).
  set (h1 := <[l := objs']> (<[l1 := map DeepCopy objs]> (arrays s))).
  set (s1' := mkRState h1 (Some (mkRender (Some c1)))).
  assert (h1 !! l1 = Some (map DeepCopy objs)) as Hh1.
  { unfold h1. rewrite lookup_insert_ne by done. apply lookup_insert_eq. }
  assert (entries c1 !! f key = Some (mkEntry (Some l1) (now + ttl c))) as Hk1
    by apply lookup_insert_eq.
  set (l2 := fresh (dom h1)).
  assert (l2 ∉ dom h1) as Hl2 by apply is_fresh.
  eexists _, l2. split.
  { eapply (renderCache_Get_hit s1' c1 f); try done. }
  split; [done|]. cbn [arrays self]. split; [apply lookup_insert_eq|].
  intros objs''.
  set (h2 := <[l2 := objs'']> (<[l2 := map DeepCopy (map DeepCopy objs)]> h1)).
  set (s2' := mkRState h2 (Some (mkRender (Some c1)))).
  assert (l2 ≠ l1) as Hne2.
  { intros Heq. apply Hl2. rewrite Heq. by eapply elem_of_dom_2. }
  assert (h2 !! l1 = Some (map DeepCopy objs)) as Hh2.
  { unfold h2. by rewrite !lookup_insert_ne by done. }
  set (l3 := fresh (dom h2)).
  assert (l3 ≠ l2) as Hne3.
  { intros Heq. apply (is_fresh (dom h2)). fold l3. rewrite Heq.
    unfold h2. rewrite dom_insert. set_solver. }
  eexists _, l3. split.
  { eapply (renderCache_Get_hit s2' c1 f); try done. }
  split; [done|]. cbn [arrays]. apply lookup_insert_eq.
Qed.

End render_extras.

(** * Further properties of deep clone and deep merge *)

(** X10. The nil inputs. A nil interface and a nil map are returned as
    they are, with nothing allocated; a nil slice of any type comes back as
    a new, empty, non-nil slice; and an empty map comes back as a new empty
    map, not as nil. *)
Theorem DeepClone_nil_and_empty (n : nat) (h : gmap loc obj) :
  DeepCloneMap n None h = Some (None, h) ∧
  DeepCloneValue (S n) VNil h = Some (VNil, h) ∧
  DeepCloneValue (S n) (VMap None) h = Some (VMap None, h) ∧
  DeepCloneValue (S n) (VAnySlice None) h
    = Some (VAnySlice (Some (fresh (dom h))), <[fresh (dom h) := OArray []]> h) ∧
  (∀ k, DeepCloneValue (S n) (VTypedSlice k None) h
          = Some (VTypedSlice k (Some (fresh (dom h))),
                  <[fresh (dom h) := OArray []]> h)) ∧
  (∀ ty, DeepCloneValue (S n) (VOtherSlice ty None) h
           = Some (VOtherSlice ty (Some (fresh (dom h))),
                   <[fresh (dom h) := OArray []]> h)) ∧
  (∀ l, h !! l = Some (OMap ∅) →
     DeepCloneMap n (Some l) h
       = Some (Some (fresh (dom h)), <[fresh (dom h) := OMap ∅]> h)).
Proof.
  split; [done|]. split; [done|]. split; [done|]. split; [done|].
  split; [done|]. split; [done|].
  intros l Hl. unfold DeepCloneMap, DeepCloneMap_with.
  rewrite (bind_Some _ _ _ _ _ (load_map_unfold _ _ _ Hl)).
  by rewrite map_to_list_empty.
Qed.

(** A map whose values are trees (fresh ones, for the recognized shapes)
    is one itself. *)
Lemma map_tree_intro b n (h h' : gmap loc obj) r rm :
  h' !! r = Some (OMap rm) → r ∉ dom h →
  (∀ k v', rm !! k = Some v' →
     wf b n h' v' = true ∧ (b = true → ∀ l, reachable h' v' l → l ∉ dom h)) →
  wf b (S n) h' (VMap (Some r)) = true ∧
  (b = true → ∀ l, reachable h' (VMap (Some r)) l → l ∉ dom h).
Proof.
  intros Hr Hfresh Hall. split.
  - eapply wf_map_intro; [done|]. intros k v' Hk. by apply (Hall k v').
  - intros Hb l0 Hreach.
    inversion Hreach as [? ? Hin | ? l1 o v' ? Hin Ho Hv' Hreach']; subst;
      simpl in Hin; apply list_elem_of_singleton in Hin as ->; [done|].
    rewrite Hr in Ho. injection Ho as <-. simpl in Hv'.
    apply elem_of_map_values in Hv' as [k Hk].
    destruct (Hall k v' Hk) as [_ Hf]. by apply Hf.
Qed.

Lemma wf_lenient b n (h : gmap loc obj) v :
  wf b n h v = true → wf false n h v = true.
Proof. destruct b; [apply wf_strict_lenient | done]. Qed.

(** What [DeepMerge] returns is a tree again, no deeper than its inputs
    and of their shape class, and for the recognized shapes every container
    below it is new. *)
Lemma DeepMerge_post b n : ∀ (h : gmap loc obj) base overlay,
  wf b n h (VMap base) = true → wf b n h (VMap overlay) = true →
  ∃ r h',
    DeepMerge n base overlay h = Some (Some r, h') ∧
    h ⊆ h' ∧ (r ∉ dom h) ∧
    wf b n h' (VMap (Some r)) = true ∧
    (b = true → ∀ l, reachable h' (VMap (Some r)) l → l ∉ dom h).
Proof.
  induction n as [|n IH]; intros h base overlay Hb Ho; [done|].
  assert (Hone : ∀ m, wf b (S n) h (VMap (Some m)) = true →
    ∃ r h', DeepCloneMap n (Some m) h = Some (Some r, h') ∧
      h ⊆ h' ∧ (r ∉ dom h) ∧ wf b (S n) h' (VMap (Some r)) = true ∧
      (b = true → ∀ l, reachable h' (VMap (Some r)) l → l ∉ dom h)).
  { intros m (mm & Hm & Hall)%wf_map_inv.
    destruct (DeepCloneMap_with_ok b n _ h m mm (DeepCloneValue_ok b n) Hm Hall)
      as (r & rm & h' & Hrun & Hsub & Hfresh & Hr & Hpost).
    destruct (clone_map_post b n h h' m r mm rm Hm Hr Hsub Hfresh Hpost)
      as (_ & _ & Hwf & Hf).
    by exists r, h'. }
  destruct base as [bl|], overlay as [ol|]; cbn [DeepMerge]; [|by apply Hone..|].
  - pose proof Hb as (bm & Hbl & Hbm)%wf_map_inv.
    pose proof Ho as (om & Hol & Hom)%wf_map_inv.
    destruct (merge_maps_ok n (DeepMerge n) (DeepCloneValue n) h bl ol bm om
                (DeepMerge_ok n) (DeepCloneValue_ok false n) Hbl Hol)
      as (r & rm & h' & Hrun & Hsub & Hfresh & Hr & Hspec).
    { intros k v Hk. eapply wf_lenient. eauto. }
    { intros k v Hk. eapply wf_lenient. eauto. }
    exists r, h'. split; [done|]. split; [done|]. split; [done|].
    eapply map_tree_intro; [done..|].
    intros k v' Hk.
    assert (Hclone : ∀ v, wf b n h v = true →
      cloned_by (DeepCloneValue n) h v h' (Some v') →
      wf b n h' v' = true ∧ (b = true → ∀ l, reachable h' v' l → l ∉ dom h)).
    { intros v Hv (v'' & ha & hb & Ha & Hb' & Hc & [= <-]).
      destruct (DeepCloneValue_ok b n ha v) as (v2 & h2 & Hc2 & Hpost).
      { by eapply wf_weaken. }
      rewrite Hc in Hc2. injection Hc2 as <- <-.
      by destruct (clone_post_transport b n h ha hb h' v v' Hv Ha Hb' Hpost)
        as (_ & _ & ? & ?). }
    specialize (Hspec k). rewrite Hk in Hspec. unfold merge_entry_spec in Hspec.
    destruct (bm !! k) as [bv|] eqn:Hk1, (om !! k) as [ov|] eqn:Hk2;
      [|by (eapply Hclone; [|exact Hspec]; eauto)..|done].
    destruct (as_map bv) as [x|] eqn:Hx, (as_map ov) as [y|] eqn:Hy;
      [|by (eapply Hclone; [|exact Hspec]; eauto)..].
    apply as_map_Some in Hx as ->. apply as_map_Some in Hy as ->.
    destruct Hspec as (z & ha & hb & Ha & Hb' & Hm & [= ->]).
    destruct (IH ha x y) as (r0 & h0 & Hm0 & Hsub0 & Hfresh0 & Hwf0 & Hf0).
    { eapply wf_weaken; eauto. }
    { eapply wf_weaken; eauto. }
    rewrite Hm in Hm0. injection Hm0 as -> <-.
    split.
    + by eapply wf_weaken.
    + intros -> l Hl Hdom. eapply (Hf0 eq_refl l).
      * eapply reachable_shrink; [done | | done]. exact Hwf0.
      * by eapply (subseteq_dom h ha).
  - exists (fresh (dom h)), (<[fresh (dom h) := OMap ∅]> h).
    split; [done|]. split; [apply alloc_extends|]. split; [apply is_fresh|].
    eapply map_tree_intro; [apply lookup_insert_eq | apply is_fresh |].
    intros k v'. by rewrite lookup_empty.
Qed.

(** X11. Merges chain. The map [DeepMerge] returns is a well-formed tree
    no deeper than its inputs, in a store that still holds the inputs as
    they were; so it can be merged again, with a third map of that store,
    and cloned. *)
Theorem DeepMerge_chains (n : nat) (h : gmap loc obj) (a b c : option loc) :
  wf false n h (VMap a) = true →
  wf false n h (VMap b) = true →
  wf false n h (VMap c) = true →
  ∃ r1 h1 r2 h2 v3 h3,
    DeepMerge n a b h = Some (Some r1, h1) ∧
    wf false n h1 (VMap (Some r1)) = true ∧
    DeepMerge n (Some r1) c h1 = Some (Some r2, h2) ∧
    wf false n h2 (VMap (Some r2)) = true ∧
    DeepCloneValue n (VMap (Some r2)) h2 = Some (v3, h3) ∧
    sim n h2 (VMap (Some r2)) h3 v3 ∧
    h ⊆ h3.
Proof.
  intros Ha Hb Hc.
  destruct (DeepMerge_post false n h a b Ha Hb) as (r1 & h1 & H1 & Hs1 & _ & Hw1 & _).
  destruct (DeepMerge_post false n h1 (Some r1) c Hw1) as (r2 & h2 & H2 & Hs2 & _ & Hw2 & _).
  { by eapply wf_weaken. }
  destruct (DeepCloneValue_ok false n h2 _ Hw2) as (v3 & h3 & H3 & Hs3 & Hsim & _).
  exists r1, h1, r2, h2, v3, h3. repeat split; try done.
  by do 2 (etrans; [done|]).
Qed.

(** X12. For inputs of the recognized shapes, the result of [DeepMerge]
    shares nothing with them at any depth: every container below the
    result is newly allocated, none backs both the result and an input,
    overwriting a container below the result leaves both inputs as they
    were, and overwriting a container below an input leaves the result as
    it was. *)
Theorem DeepMerge_shares_nothing (n : nat) (h : gmap loc obj) (base overlay : option loc) :
  wf true n h (VMap base) = true →
  wf true n h (VMap overlay) = true →
  ∃ r h',
    DeepMerge n base overlay h = Some (Some r, h') ∧
    (∀ l, reachable h' (VMap (Some r)) l → l ∉ dom h) ∧
    (∀ l, reachable h' (VMap base) l ∨ reachable h' (VMap overlay) l → l ∈ dom h) ∧
    (∀ l o, reachable h' (VMap (Some r)) l →
       sim n h (VMap base) (<[l := o]> h') (VMap base) ∧
       sim n h (VMap overlay) (<[l := o]> h') (VMap overlay)) ∧
    (∀ l o, reachable h' (VMap base) l ∨ reachable h' (VMap overlay) l →
       sim n h' (VMap (Some r)) (<[l := o]> h') (VMap (Some r))).
Proof.
  intros Hb Ho.
  destruct (DeepMerge_post true n h base overlay Hb Ho)
    as (r & h' & Hrun & Hsub & Hr & Hwf & Hfresh).
  specialize (Hfresh eq_refl).
  assert (Hsrc : ∀ l, reachable h' (VMap base) l ∨ reachable h' (VMap overlay) l →
                      l ∈ dom h).
  { intros l [Hl|Hl]; (eapply reachable_allocated; [by eapply reachable_shrink|done]). }
  exists r, h'. split; [done|]. split; [done|]. split; [done|]. split.
  - intros l o Hl.
    assert (h ⊆ <[l := o]> h') as Hsub'.
    { apply insert_subseteq_r; [|done]. by apply not_elem_of_dom, Hfresh. }
    split; (eapply sim_weaken; [by eapply sim_refl | done | done]).
  - intros l o Hl. apply sim_frame; [done|].
    intros l' Hl'. apply lookup_insert_ne. intros ->.
    by eapply Hfresh, Hsrc.
Qed.

(** X13. Merging with an empty map is cloning: with an empty, non-nil
    overlay the result is structurally equal to the base, and with an
    empty, non-nil base it is structurally equal to the overlay. *)
Theorem DeepMerge_empty_side (n : nat) (h : gmap loc obj) (m e : loc) :
  wf false (S n) h (VMap (Some m)) = true →
  h !! e = Some (OMap ∅) →
  (∃ r h', DeepMerge (S n) (Some m) (Some e) h = Some (Some r, h') ∧
           sim (S n) h (VMap (Some m)) h' (VMap (Some r))) ∧
  (∃ r h', DeepMerge (S n) (Some e) (Some m) h = Some (Some r, h') ∧
           sim (S n) h (VMap (Some m)) h' (VMap (Some r))).
Proof.
  intros Hwf He. pose proof Hwf as (mm & Hm & Hall)%wf_map_inv.
  assert (Hnone : ∀ k v, (∅ : gmap string val) !! k = Some v → wf false n h v = true)
    by (intros k v; by rewrite lookup_empty).
  split.
  - destruct (merge_maps_ok n (DeepMerge n) (DeepCloneValue n) h m e mm ∅
                (DeepMerge_ok n) (DeepCloneValue_ok false n) Hm He Hall Hnone)
      as (r & rm & h' & Hrun & Hsub & Hfresh & Hr & Hspec).
    exists r, h'. split; [done|]. exists mm, rm. split; [done|]. split; [done|].
    intros k. specialize (Hspec k). unfold merge_entry_spec in Hspec.
    rewrite lookup_empty in Hspec.
    destruct (mm !! k) as [v|] eqn:Hk; [|rewrite Hspec; constructor].
    destruct (cloned_is_clone n h h' v (rm !! k)) as (_ & v' & -> & Hsim);
      [by eapply Hall | done |]. by constructor.
  - destruct (merge_maps_ok n (DeepMerge n) (DeepCloneValue n) h e m ∅ mm
                (DeepMerge_ok n) (DeepCloneValue_ok false n) He Hm Hnone Hall)
      as (r & rm & h' & Hrun & Hsub & Hfresh & Hr & Hspec).
    exists r, h'. split; [done|]. exists mm, rm. split; [done|]. split; [done|].
    intros k. specialize (Hspec k). unfold merge_entry_spec in Hspec.
    rewrite lookup_empty in Hspec.
    destruct (mm !! k) as [v|] eqn:Hk; [|rewrite Hspec; constructor].
    destruct (cloned_is_clone n h h' v (rm !! k)) as (_ & v' & -> & Hsim);
      [by eapply Hall | done |]. by constructor.
Qed.

(** * Properties of the annotation and label setters *)

Import k8s.

Lemma foldl_insert_lookup (l : list (string * string)) :
  NoDup l.*1 →
  ∀ (dst : gmap string string) k,
    foldl (λ dst kv, <[kv.1 := kv.2]> dst) dst l !! k =
      match (list_to_map l : gmap string string) !! k with
      | Some v => Some v
      | None => dst !! k
      end.
Proof.
  induction l as [|[k0 v0] l IH]; intros Hnd dst k; simpl.
  - by rewrite lookup_empty.
  - apply NoDup_cons in Hnd as [Hk0 Hnd]. rewrite IH by done.
    destruct (decide (k = k0)) as [->|Hne].
    + rewrite lookup_insert_eq.
      rewrite (not_elem_of_list_to_map_1 l k0) by done.
      by rewrite lookup_insert_eq.
    + rewrite (lookup_insert_ne (list_to_map l)) by done.
      destruct (list_to_map l !! k); [done|]. by rewrite lookup_insert_ne.
Qed.

(** [maps.Copy]: the keys of [src] take its values, every other key keeps
    the one of [dst]. *)
Lemma maps_Copy_lookup (dst src : gmap string string) k :
  maps_Copy dst src !! k =
    match src !! k with
    | Some v => Some v
    | None => dst !! k
    end.
Proof.
  unfold maps_Copy. rewrite foldl_insert_lookup by apply NoDup_fst_map_to_list.
  by rewrite list_to_map_to_list.
Qed.

Lemma maps_Copy_union (dst src : gmap string string) :
  maps_Copy dst src = src ∪ dst.
Proof.
  apply map_eq. intros k. rewrite maps_Copy_lookup, lookup_union.
  destruct (src !! k), (dst !! k); done.
Qed.

Section k8s_extras.

Context {Object : Type}.
Variable GetAnnotations : Object → option (gmap string string).
Variable Object_SetAnnotations : Object → gmap string string → Object.
Variable GetLabels : Object → option (gmap string string).
Variable Object_SetLabels : Object → gmap string string → Object.

(** What the functions rely on an [Object] for: a map that was set is the
    map that is got, and setting one of the two maps leaves the other. *)
Hypothesis get_set_annotations :
  ∀ o m, GetAnnotations (Object_SetAnnotations o m) = Some m.
Hypothesis labels_set_annotations :
  ∀ o m, GetLabels (Object_SetAnnotations o m) = GetLabels o.
Hypothesis get_set_labels :
  ∀ o m, GetLabels (Object_SetLabels o m) = Some m.
Hypothesis annotations_set_labels :
  ∀ o m, GetAnnotations (Object_SetLabels o m) = GetAnnotations o.

Local Abbreviation SetAnnotation := (SetAnnotation GetAnnotations Object_SetAnnotations).
Local Abbreviation SetAnnotations := (SetAnnotations GetAnnotations Object_SetAnnotations).
Local Abbreviation SetLabel := (SetLabel GetLabels Object_SetLabels).
Local Abbreviation SetLabels := (SetLabels GetLabels Object_SetLabels).

(** X14. [SetAnnotation] leaves the object with a non-nil annotation map
    that holds the value under the key and, under every other key, what
    the object held before (nothing, when it had no annotations); the
    labels are not touched. *)
Theorem SetAnnotation_sets_one_key (o : Object) (key value : string) :
  ∃ m, GetAnnotations (SetAnnotation o key value) = Some m ∧
       m !! key = Some value ∧
       (∀ k, k ≠ key → m !! k = or_make (GetAnnotations o) !! k) ∧
       GetLabels (SetAnnotation o key value) = GetLabels o.
Proof.
  unfold k8s.SetAnnotation. eexists. split; [apply get_set_annotations|].
  split; [apply lookup_insert_eq|]. split; [|apply labels_set_annotations].
  intros k Hk. by apply lookup_insert_ne.
Qed.

(** X15. [SetAnnotations] merges: afterwards the annotation map is non-nil
    (also when the object had none and [toSet] is empty), every key of
    [toSet] holds the value [toSet] gives it, every other key holds what
    the object held before, and the labels are not touched. Setting one
    pair through it is [SetAnnotation], setting the same map twice is
    setting it once, and setting [a] and then [b] is setting their union
    with [b] taking precedence. *)
Theorem SetAnnotations_merges (o : Object) (toSet : gmap string string) :
  (∃ m, GetAnnotations (SetAnnotations o toSet) = Some m ∧
        ∀ k, m !! k = match toSet !! k with
                      | Some v => Some v
                      | None => or_make (GetAnnotations o) !! k
                      end) ∧
  GetLabels (SetAnnotations o toSet) = GetLabels o ∧
  (∀ key value,
     GetAnnotations (SetAnnotations o {[key := value]})
       = GetAnnotations (SetAnnotation o key value)) ∧
  GetAnnotations (SetAnnotations (SetAnnotations o toSet) toSet)
    = GetAnnotations (SetAnnotations o toSet) ∧
  (∀ b, GetAnnotations (SetAnnotations (SetAnnotations o toSet) b)
          = GetAnnotations (SetAnnotations o (b ∪ toSet))).
Proof.
  unfold k8s.SetAnnotations, k8s.SetAnnotation.
  split; [|split; [|split; [|split]]].
  - eexists. split; [apply get_set_annotations|]. intros k. apply maps_Copy_lookup.
  - apply labels_set_annotations.
  - intros key value. rewrite !get_set_annotations. f_equal.
    rewrite maps_Copy_union. by rewrite <- insert_union_singleton_l.
  - rewrite !get_set_annotations. cbn [or_make]. f_equal.
    rewrite !maps_Copy_union. by rewrite (assoc (∪)), (idemp (∪)).
  - intros b. rewrite !get_set_annotations. cbn [or_make]. f_equal.
    rewrite !maps_Copy_union. by rewrite (assoc (∪)).
Qed.

(** X16. [SetLabel] and [SetLabels] do to the labels what [SetAnnotation]
    and [SetAnnotations] do to the annotations: the label map is non-nil
    afterwards, the keys set hold their new values, every other key holds
    what it held, and the annotations are not touched. *)
Theorem SetLabels_merges (o : Object) (toSet : gmap string string) (key value : string) :
  (∃ m, GetLabels (SetLabel o key value) = Some m ∧
        m !! key = Some value ∧
        ∀ k, k ≠ key → m !! k = or_make (GetLabels o) !! k) ∧
  GetAnnotations (SetLabel o key value) = GetAnnotations o ∧
  (∃ m, GetLabels (SetLabels o toSet) = Some m ∧
        ∀ k, m !! k = match toSet !! k with
                      | Some v => Some v
                      | None => or_make (GetLabels o) !! k
                      end) ∧
  GetAnnotations (SetLabels o toSet) = GetAnnotations o ∧
  GetLabels (SetLabels o {[key := value]}) = GetLabels (SetLabel o key value).
Proof.
  unfold k8s.SetLabels, k8s.SetLabel.
  split; [|split; [|split; [|split]]].
  - eexists. split; [apply get_set_labels|]. split; [apply lookup_insert_eq|].
    intros k Hk. by apply lookup_insert_ne.
  - apply annotations_set_labels.
  - eexists. split; [apply get_set_labels|]. intros k. apply maps_Copy_lookup.
  - apply annotations_set_labels.
  - rewrite !get_set_labels. f_equal.
    rewrite maps_Copy_union. by rewrite <- insert_union_singleton_l.
Qed.

(** X17. Labels and annotations are independent: setting labels and then
    annotations leaves the same two maps as setting annotations and then
    labels. *)
Theorem labels_and_annotations_commute (o : Object) (a l : gmap string string) :
  GetAnnotations (SetLabels (SetAnnotations o a) l)
    = GetAnnotations (SetAnnotations (SetLabels o l) a) ∧
  GetLabels (SetLabels (SetAnnotations o a) l)
    = GetLabels (SetAnnotations (SetLabels o l) a).
Proof.
  unfold k8s.SetLabels, k8s.SetAnnotations. split.
  - by rewrite annotations_set_labels, !get_set_annotations, annotations_set_labels.
  - by rewrite labels_set_annotations, !get_set_labels, labels_set_annotations.
Qed.

End k8s_extras.

(** * Instances of the further properties *)

Lemma Set_frames_other_keys_witness :
  let c := mkCache (T:=Z) {["k" := mkEntry 7 100]} 60
             (Some (DefaultKeyFunc spewForHash)) in
  ∃ c', Set_ 50 (KString "j") 8 c = Some (tt, c') ∧
        fst <$> Get 60 (KString "k") c' = Some (7, true).
Proof.
  intros c.
  destruct (Set_frames_other_keys c (DefaultKeyFunc spewForHash) 50
              (KString "j") (KString "k") 8) as (c' & Hset & _ & Hget);
    [reflexivity | by vm_compute |].
  exists c'. split; [exact Hset|]. rewrite Hget. by vm_compute.
Defined.

Lemma Set_Get_aliased_key_witness :
  let c := mkCache (T:=Z) ∅ 60 (Some (DefaultKeyFunc spewForHash)) in
  ∃ c', Set_ 0 (KInt 42) 8 c = Some (tt, c') ∧
        Get 60 (KString "42") c' = Some ((8, true), c').
Proof.
  intros c.
  apply (Set_Get_aliased_key c (DefaultKeyFunc spewForHash) 0 60
           (KInt 42) (KString "42") 8);
    [reflexivity | by vm_compute | vm_compute; discriminate].
Defined.

Lemma Sync_invisible_to_Get_witness :
  let c := mkCache (T:=Z) {["k" := mkEntry 7 100; "j" := mkEntry 8 200]} 60
             (Some (DefaultKeyFunc spewForHash)) in
  ∃ c', Sync 150 c = Some (tt, c') ∧
        fst <$> Get 150 (KString "k") c' = fst <$> Get 150 (KString "k") c ∧
        fst <$> Get 180 (KString "j") c' = fst <$> Get 180 (KString "j") c.
Proof.
  intros c. destruct (Sync_runs c 150) as (c' & Hs & _).
  exists c'. split; [exact Hs|]. split.
  - apply (Sync_invisible_to_Get c c' 150 150 (KString "k")); [lia | exact Hs].
  - apply (Sync_invisible_to_Get c c' 150 180 (KString "j")); [lia | exact Hs].
Defined.

Lemma Sync_absorbs_earlier_Sync_witness :
  let c := mkCache (T:=Z) {["k" := mkEntry 7 100; "j" := mkEntry 8 200]} 60
             (Some (DefaultKeyFunc spewForHash)) in
  ∃ c1 c2, Sync 150 c = Some (tt, c1) ∧ Sync 250 c1 = Some (tt, c2) ∧
           Sync 250 c = Some (tt, c2).
Proof.
  intros c. destruct (Sync_runs c 150) as (c1 & H1 & _).
  destruct (Sync_runs c1 250) as (c2 & H2 & _).
  exists c1, c2. split; [exact H1|]. split; [exact H2|].
  apply (Sync_absorbs_earlier_Sync c c1 c2 150 250); [lia | exact H1 | exact H2].
Defined.

Lemma Set_then_Sync_after_expiry_witness :
  let c := New (T:=Z) spewForHash [WithTTL (100 * Millisecond)] in
  ∃ c1 c2,
    Set_ 0 (KString "k") 7 c = Some (tt, c1) ∧
    Sync (150 * Millisecond) c1 = Some (tt, c2) ∧
    Get 0 (KString "k") c2 = Some ((0, false), c2).
Proof.
  intros c.
  destruct (Set_then_Sync_after_expiry c 0 (150 * Millisecond) (KString "k") 7)
    as (f & c1 & c2 & _ & H1 & H2 & _ & _ & H3).
  - split; [by vm_compute | by eexists].
  - by vm_compute.
  - exists c1, c2. split; [exact H1|]. split; [exact H2|]. apply H3.
Defined.

Lemma calls_never_panic_witness :
  ∃ rs c',
    do_calls [CallSet 0 (KString "k") 7; CallSync 10; CallGet 20 (KString "k")]
      (New (T:=Z) spewForHash []) = Some (rs, c') ∧
    length rs = 3%nat ∧
    ∀ k e, entries c' !! k = Some e →
      ∃ now key, expiration e = now + ttl c' ∧
        CallSet now key (value e)
          ∈ [CallSet 0 (KString "k") 7; CallSync 10; CallGet 20 (KString "k")].
Proof.
  destruct (calls_never_panic spewForHash (T:=Z) []
              [CallSet 0 (KString "k") 7; CallSync 10; CallGet 20 (KString "k")])
    as (rs & c' & f & Hrun & Hlen & _ & _ & _ & Hin).
  exists rs, c'. split; [exact Hrun|]. split; [exact Hlen|].
  intros k e He. destruct (Hin k e He) as (now & key & H1 & H2 & _).
  by exists now, key.
Defined.

Lemma New_last_option_wins_witness :
  ttl (New (T:=Z) spewForHash [WithTTL 10; WithTTL 20]) = 20 ∧
  ttl (New (T:=Z) spewForHash [WithTTL 10; WithTTL 0]) = defaultTTL ∧
  ttl (New (T:=Z) spewForHash [WithTTL 10; StructOption (mkOptions 0 None)]) = 10.
Proof.
  destruct (New_last_option_wins spewForHash (T:=Z) [WithTTL 10])
    as (H1 & _ & _ & _ & _ & _ & _).
  destruct (New_last_option_wins spewForHash (T:=Z) [])
    as (_ & _ & _ & _ & _ & _ & H7).
  split; [apply (H1 20); lia|].
  apply (H7 10 0); lia.
Defined.

Lemma renderCache_nil_receiver_witness :
  let s := mkRState (Obj:=nat) ∅ None in
  renderCache_Get S 0 (KString "k") s = Some ((None, false), s) ∧
  renderCache_Set S 0 (KString "k") (Some 5%positive) s = Some (tt, s) ∧
  renderCache_Sync 0 s = Some (tt, s).
Proof.
  intros s.
  destruct (renderCache_nil_receiver S s) as (H1 & H2 & H3); [by left|].
  split; [apply H1|]. split; [apply H2 | apply H3].
Defined.

Lemma renderCache_round_trip_witness :
  let s := mkRState (Obj:=nat) {[1%positive := [1%nat; 2%nat]]}
             (Some (NewRenderCache spewForHash [])) in
  ∃ s1 l1,
    renderCache_Set S 0 (KString "k") (Some 1%positive) s = Some (tt, s1) ∧
    arrays s1 = <[l1 := [2%nat; 3%nat]]> (arrays s) ∧
    ∃ s2 l2,
      renderCache_Get S 1 (KString "k")
        (mkRState (<[1%positive := [9%nat]]> (arrays s1)) (self s1))
        = Some ((Some l2, true), s2) ∧
      arrays s2 !! l2 = Some [3%nat; 4%nat].
Proof.
  intros s.
  destruct (renderCache_round_trip S s (New spewForHash []) 0 1 (KString "k")
              1%positive [1%nat; 2%nat])
    as (s1 & l1 & Hset & _ & Harr & Hget);
    [reflexivity | split; [by vm_compute | by eexists] | reflexivity
    | vm_compute; discriminate |].
  exists s1, l1. split; [exact Hset|]. split; [exact Harr|].
  destruct (Hget [9%nat]) as (s2 & l2 & Hg & _ & Hl2 & _).
  by exists s2, l2.
Defined.

Lemma DeepClone_nil_and_empty_witness :
  DeepCloneMap 1 (Some 1%positive) {[1%positive := OMap ∅]}
    = Some (Some 2%positive, <[2%positive := OMap ∅]> {[1%positive := OMap ∅]}).
Proof.
  destruct (DeepClone_nil_and_empty 1 {[1%positive := OMap ∅]})
    as (_ & _ & _ & _ & _ & _ & Hempty).
  apply (Hempty 1%positive). reflexivity.
Defined.

Lemma DeepMerge_chains_witness :
  ∃ r1 h1 r2 h2 v3 h3,
    DeepMerge 3 (Some 1%positive) (Some 2%positive) store_config = Some (Some r1, h1) ∧
    DeepMerge 3 (Some r1) (Some 4%positive) h1 = Some (Some r2, h2) ∧
    DeepCloneValue 3 (VMap (Some r2)) h2 = Some (v3, h3) ∧
    store_config ⊆ h3.
Proof.
  destruct (DeepMerge_chains 3 store_config (Some 1%positive) (Some 2%positive)
              (Some 4%positive))
    as (r1 & h1 & r2 & h2 & v3 & h3 & H1 & _ & H2 & _ & H3 & _ & Hsub);
    [by vm_compute..|].
  exists r1, h1, r2, h2, v3, h3.
  split; [exact H1|]. split; [exact H2|]. split; [exact H3 | exact Hsub].
Defined.

Lemma DeepMerge_shares_nothing_witness :
  ∃ r h',
    DeepMerge 3 (Some 1%positive) (Some 2%positive) store_config = Some (Some r, h') ∧
    ∀ l, reachable h' (VMap (Some r)) l → l ∉ dom store_config.
Proof.
  destruct (DeepMerge_shares_nothing 3 store_config (Some 1%positive) (Some 2%positive))
    as (r & h' & Hrun & Hfresh & _); [by vm_compute..|].
  exists r, h'. split; [exact Hrun | exact Hfresh].
Defined.

Lemma DeepMerge_empty_side_witness :
  let h := <[9%positive := OMap ∅]> store_x in
  (∃ r h', DeepMerge 3 (Some 1%positive) (Some 9%positive) h = Some (Some r, h') ∧
           sim 3 h (VMap (Some 1%positive)) h' (VMap (Some r))) ∧
  (∃ r h', DeepMerge 3 (Some 9%positive) (Some 1%positive) h = Some (Some r, h') ∧
           sim 3 h (VMap (Some 1%positive)) h' (VMap (Some r))).
Proof.
  intros h.
  apply (DeepMerge_empty_side 2 h 1%positive 9%positive); [by vm_compute | reflexivity].
Defined.

(** The laws of an [Object] hold of [meta]. *)
Lemma SetAnnotation_sets_one_key_witness :
  let o := mkMeta None (Some {["app" := "x"]}) in
  ∃ m, annotations (SetAnnotation annotations meta_SetAnnotations o "k" "v") = Some m ∧
       m !! "k" = Some "v" ∧
       labels (SetAnnotation annotations meta_SetAnnotations o "k" "v")
         = Some {["app" := "x"]}.
Proof.
  intros o.
  destruct (SetAnnotation_sets_one_key annotations meta_SetAnnotations labels
              (λ o m, eq_refl) (λ o m, eq_refl) o "k" "v")
    as (m & Hm & Hk & _ & Hl).
  exists m. split; [exact Hm|]. split; [exact Hk | exact Hl].
Defined.

Lemma SetAnnotations_merges_witness :
  let o := mkMeta (Some {["existing" := "val"]}) None in
  ∃ m, annotations (SetAnnotations annotations meta_SetAnnotations o
                      {["a" := "1"; "b" := "2"]}) = Some m ∧
       m !! "existing" = Some "val" ∧ m !! "a" = Some "1" ∧ m !! "b" = Some "2".
Proof.
  intros o.
  destruct (SetAnnotations_merges annotations meta_SetAnnotations labels
              (λ o m, eq_refl) (λ o m, eq_refl) o {["a" := "1"; "b" := "2"]})
    as ((m & Hm & Hk) & _).
  exists m. split; [exact Hm|]. rewrite !Hk. by vm_compute.
Defined.

Lemma SetLabels_merges_witness :
  let o := mkMeta None (Some {["existing" := "val"]}) in
  ∃ m, labels (SetLabels labels meta_SetLabels o {["a" := "1"]}) = Some m ∧
       m !! "existing" = Some "val" ∧ m !! "a" = Some "1".
Proof.
  intros o.
  destruct (SetLabels_merges annotations labels meta_SetLabels
              (λ o m, eq_refl) (λ o m, eq_refl) o {["a" := "1"]} "k" "v")
    as (_ & _ & (m & Hm & Hk) & _).
  exists m. split; [exact Hm|]. rewrite !Hk. by vm_compute.
Defined.

Lemma labels_and_annotations_commute_witness :
  let o := mkMeta None None in
  let o1 := SetLabels labels meta_SetLabels
              (SetAnnotations annotations meta_SetAnnotations o {["a" := "1"]})
              {["l" := "2"]} in
  let o2 := SetAnnotations annotations meta_SetAnnotations
              (SetLabels labels meta_SetLabels o {["l" := "2"]})
              {["a" := "1"]} in
  annotations o1 = annotations o2 ∧ labels o1 = labels o2.
Proof.
  intros o o1 o2.
  exact (labels_and_annotations_commute annotations meta_SetAnnotations
           labels meta_SetLabels (λ o m, eq_refl) (λ o m, eq_refl)
           (λ o m, eq_refl) (λ o m, eq_refl) o {["a" := "1"]} {["l" := "2"]}).
Defined.
